(** * capture_bore.py: the bore launcher, its port scanner and its notifier

    A shallow embedding of [my-digital-library/capture_bore.py].

    - Python [bytes] are lists of [Byte.byte]; Python [str] is a list of
      Unicode code points ([Z]).
    - [bytes.decode('utf-8', errors='ignore')] is the strict UTF-8 decoder
      of the interpreter with the [ignore] handler: every byte range the
      decoder reports as an error is dropped and decoding resumes behind it.
    - The wall clock is a rational number of seconds.  The environment of
      the scan loop is the list of its iterations: the clock reading of the
      loop test and what [process.stdout.read(1)] then gives.
    - Console output, sleeps, process and mail operations are recorded in a
      log of actions, in program order.
    - The program is given twice.  First as it runs when the calls that
      raise are [Popen], the read of the loop, the mail steps,
      [process.wait()] and [subprocess.run], on a console that takes every
      character.  Then with the remaining failures: exceptions that arrive
      at the loop test, in the loop body or in the handler's sleep, and
      [print] on a console whose encoding lacks a character.  The second
      reduces to the first when those failures are absent. *)

From Stdlib Require Import String Ascii Strings.Byte.
From Stdlib Require Import QArith ZArith List Bool Lia DecimalString.
Import ListNotations.

Local Open Scope Z_scope.

(** ** Text *)

Definition pystr := list Z.

Definition byte_val (b : byte) : Z := Z.of_N (Byte.to_N b).

(** A literal of the source, as bytes and as text (the literals used here
    are ASCII, one code point per byte). *)
Definition bytes_lit (s : string) : list byte := list_byte_of_string s.
Definition lit (s : string) : pystr := map byte_val (bytes_lit s).

Definition is_ascii (c : Z) : bool := c <? 0x80.
Definition is_ascii_digit (c : Z) : bool := (0x30 <=? c) && (c <=? 0x39).

(** ** UTF-8 decoding with [errors='ignore'] *)

Module Utf8.

Definition is_cont (c : Z) : bool := (0x80 <=? c) && (c <? 0xC0).

Definition cp2 (c0 c1 : Z) : Z := c0 * 64 + c1 - (0xC0 * 64 + 0x80).
Definition cp3 (c0 c1 c2 : Z) : Z :=
  c0 * 4096 + c1 * 64 + c2 - (0xE0 * 4096 + 0x80 * 64 + 0x80).
Definition cp4 (c0 c1 c2 c3 : Z) : Z :=
  c0 * 262144 + c1 * 4096 + c2 * 64 + c3
  - (0xF0 * 262144 + 0x80 * 4096 + 0x80 * 64 + 0x80).

(** Second byte of a three-byte form: a continuation byte that neither
    makes the form overlong (E0 80..9F) nor a surrogate (ED A0..BF). *)
Definition bad_second3 (c0 c1 : Z) : bool :=
  negb (is_cont c1) || (if c1 <? 0xA0 then c0 =? 0xE0 else c0 =? 0xED).

(** Second byte of a four-byte form: not overlong (F0 80..8F) and not
    beyond U+10FFFF (F4 90..BF). *)
Definition bad_second4 (c0 c1 : Z) : bool :=
  negb (is_cont c1) || (if c1 <? 0x90 then c0 =? 0xF0 else c0 =? 0xF4).

(** The decoder.  An invalid start byte is dropped alone; an invalid
    continuation byte ends the error range just before itself, so that
    decoding resumes at that byte; a form cut short by the end of the data
    is dropped whole. *)
Fixpoint decode (bs : list byte) : pystr :=
  match bs with
  | [] => []
  | b0 :: t0 =>
    let c0 := byte_val b0 in
    if c0 <? 0x80 then c0 :: decode t0
    else if c0 <? 0xC2 then decode t0
    else if c0 <? 0xE0 then
      match t0 with
      | [] => []
      | b1 :: t1 =>
        let c1 := byte_val b1 in
        if is_cont c1 then cp2 c0 c1 :: decode t1 else decode t0
      end
    else if c0 <? 0xF0 then
      match t0 with
      | [] => []
      | b1 :: t1 =>
        let c1 := byte_val b1 in
        if bad_second3 c0 c1 then decode t0
        else
          match t1 with
          | [] => []
          | b2 :: t2 =>
            let c2 := byte_val b2 in
            if is_cont c2 then cp3 c0 c1 c2 :: decode t2 else decode t1
          end
      end
    else if c0 <? 0xF5 then
      match t0 with
      | [] => []
      | b1 :: t1 =>
        let c1 := byte_val b1 in
        if bad_second4 c0 c1 then decode t0
        else
          match t1 with
          | [] => []
          | b2 :: t2 =>
            let c2 := byte_val b2 in
            if negb (is_cont c2) then decode t1
            else
              match t2 with
              | [] => []
              | b3 :: t3 =>
                let c3 := byte_val b3 in
                if is_cont c3 then cp4 c0 c1 c2 c3 :: decode t3
                else decode t2
              end
          end
      end
    else decode t0
  end.

End Utf8.

(** ** Substring test and the fallback pattern *)

Fixpoint starts_with (p s : pystr) : bool :=
  match p, s with
  | [], _ => true
  | _ :: _, [] => false
  | x :: p', y :: s' => (x =? y) && starts_with p' s'
  end.

(** [needle in hay]. *)
Fixpoint contains (needle hay : pystr) : bool :=
  starts_with needle hay ||
  match hay with
  | [] => false
  | _ :: hay' => contains needle hay'
  end.

Definition marker : pystr := lit "bore.pub:".
Definition marker_bytes : list byte := bytes_lit "bore.pub:".

Fixpoint strip_prefix (p s : pystr) : option pystr :=
  match p, s with
  | [], _ => Some s
  | _ :: _, [] => None
  | x :: p', y :: s' => if x =? y then strip_prefix p' s' else None
  end.

(** ** Processes, exceptions and the action log *)

Definition handle := nat.

(** Exceptions: the subclasses of [Exception], which [except Exception]
    catches, and [KeyboardInterrupt], which only a bare [except] or an
    [except KeyboardInterrupt] catches. *)
Inductive exn :=
| PyException (msg : pystr)
| KeyboardInterrupt.

Definition exn_str (e : exn) : pystr :=
  match e with
  | PyException msg => msg
  | KeyboardInterrupt => []
  end.

Definition is_Exception (e : exn) : bool :=
  match e with
  | PyException _ => true
  | KeyboardInterrupt => false
  end.

Record email := {
  mail_body : pystr;
  mail_subject : pystr;
  mail_from : pystr;
  mail_to : pystr
}.

Inductive action :=
| Print (s : pystr)
| Spawn (h : handle) (argv : list string) (env : list (string * string))
| Sleep (d : Q)
| Wait (h : handle)
| Terminate (h : handle)
| Run (argv : list string)
| SmtpConnect (host : string) (port : Z)
| SmtpStartTls
| SmtpLogin (user password : pystr)
| SmtpSend (m : email)
| SmtpQuit.

Definition is_Terminate (a : action) : bool :=
  match a with
  | Terminate _ => true
  | _ => false
  end.

(** What running a piece of the program against a recorded environment
    gives: a value, an exception that leaves it, or [Pending] when the
    recorded environment ends while the program is still running. *)
Inductive outcome (A : Type) :=
| Done (a : A) (log : list action)
| Raised (e : exn) (log : list action)
| Pending (log : list action).

Arguments Done {A} a log.
Arguments Raised {A} e log.
Arguments Pending {A} log.

Definition log_of {A} (o : outcome A) : list action :=
  match o with
  | Done _ l | Raised _ l | Pending l => l
  end.

Definition after {A} (pre : list action) (o : outcome A) : outcome A :=
  match o with
  | Done a l => Done a (pre ++ l)
  | Raised e l => Raised e (pre ++ l)
  | Pending l => Pending (pre ++ l)
  end.

Definition bind {A B} (o : outcome A) (k : A -> outcome B) : outcome B :=
  match o with
  | Done a l => after l (k a)
  | Raised e l => Raised e l
  | Pending l => Pending l
  end.

Notation "'perform' x <- c ;; k" := (bind c (fun x => k))
  (at level 10, x name, c at level 100, k at level 200).

(** One library call that either returns or raises. *)
Definition call (a : action) (r : option exn) : outcome unit :=
  match r with
  | None => Done tt [a]
  | Some e => Raised e [a]
  end.

(** [print(s)] on a console that takes every character of [s]; [say_io]
    is [print] on a console with an encoding. *)
Definition say (s : pystr) : outcome unit := Done tt [Print s].

(** [os.environ] as an association list; [env[k] = v]. *)
Fixpoint env_set (k v : string) (env : list (string * string))
  : list (string * string) :=
  match env with
  | [] => [(k, v)]
  | (k', v') :: env' =>
    if String.eqb k k' then (k, v) :: env' else (k', v') :: env_set k v env'
  end.

(** ** The clock *)

(** [time.time() - start_time < 15] *)
Definition CAPTURE_TIMEOUT : Q := 15.

Definition in_budget (start_time now : Q) : bool :=
  negb (Qle_bool CAPTURE_TIMEOUT (now - start_time)).

(** ** The scan loop's environment *)

(** [process.stdout.read(1)] on the unbuffered pipe: one byte, [b""] at
    end of file, or an exception. *)
Inductive read_result :=
| RByte (b : byte)
| REmpty
| RRaise (e : exn).

Record capture_env := {
  os_environ : list (string * string);
  popen : handle + exn;
  start_clock : Q;
  iterations : list (Q * read_result)
}.

Record scan_state := {
  output : list byte;
  found_bore_pub : bool;
  port_digits : pystr
}.

Definition scan_init : scan_state :=
  {| output := []; found_bore_pub := false; port_digits := [] |}.

Inductive loop_exit :=
| FastReturn (url : pystr)
| TimedOut (st : scan_state).

Definition BORE_ARGV : list string :=
  ["bore.exe"; "local"; "8080"; "--to"; "bore.pub"]%string.

Definition SMTP_SERVER : string := "smtp.gmail.com".
Definition SMTP_PORT : Z := 587.

Definition try_except {A} (o : outcome A) (catches : exn -> bool)
    (handler : exn -> outcome A) : outcome A :=
  match o with
  | Raised e l => if catches e then after l (handler e) else Raised e l
  | _ => o
  end.

(** [with ctx: body]: the exit of the context manager runs whether the
    body returns or raises; an exception of the exit replaces the body's. *)
Definition with_exit (body exit : outcome unit) : outcome unit :=
  match body with
  | Done _ l => after l exit
  | Raised e l =>
    match exit with
    | Done _ l' => Raised e (l ++ l')
    | Raised e' l' => Raised e' (l ++ l')
    | Pending l' => Pending (l ++ l')
    end
  | Pending l => Pending l
  end.

Record smtp_env := {
  connect_r : option exn;
  starttls_r : option exn;
  login_r : option exn;
  send_r : option exn;
  quit_r : option exn
}.

Record main_env := {
  capture : capture_env;
  smtp : smtp_env;
  wait_r : option exn;
  run_r : option exn
}.

(** ** Sample data *)

(** A stand-in for the character database: the Arabic-Indic digits
    U+0660..U+0669. *)
Definition sample_digits (c : Z) : bool := (0x660 <=? c) && (c <=? 0x669).

(** Every byte of [s] read at second 1, then what [tail] records. *)
Definition sample_env (s : list byte) (tail : list (Q * read_result))
  : capture_env :=
  {| os_environ := [];
     popen := inl 7%nat;
     start_clock := 0;
     iterations := map (fun b => (1%Q, RByte b)) s ++ tail |}.

Definition smtp_fine : smtp_env :=
  {| connect_r := None; starttls_r := None; login_r := None;
     send_r := None; quit_r := None |}.

Definition smtp_login_refused : smtp_env :=
  {| connect_r := None; starttls_r := None;
     login_r := Some (PyException (lit "(535, b'5.7.8 BadCredentials')"));
     send_r := None; quit_r := None |}.

Definition sample_main (s : list byte) (tail : list (Q * read_result))
    (mail : smtp_env) (w : option exn) : main_env :=
  {| capture := sample_env s tail; smtp := mail; wait_r := w; run_r := None |}.

(** The bytes of [s] read between second 6 and second 8, with an empty
    read and a read that raises in front, by a script started at
    second 5 with two variables in its environment. *)
Definition noisy_env (s : list byte) : capture_env :=
  {| os_environ := [("PATH", "/usr/bin"); ("TERM", "xterm")]%string;
     popen := inl 7%nat;
     start_clock := 5;
     iterations := (6%Q, REmpty) :: (7%Q, RRaise KeyboardInterrupt)
                   :: map (fun b => (8%Q, RByte b)) s |}.

Definition smtp_interrupted : smtp_env :=
  {| connect_r := None; starttls_r := None;
     login_r := Some KeyboardInterrupt;
     send_r := None; quit_r := None |}.

Definition no_bore : main_env :=
  {| capture := {| os_environ := [];
                   popen := inr (PyException (lit "[WinError 2]"));
                   start_clock := 0; iterations := [] |};
     smtp := smtp_fine; wait_r := None; run_r := None |}.

Section Program.

(** The Unicode character database beyond ASCII is not part of the source:
    which code points from U+0080 on [str.isdigit] accepts, and which ones
    the pattern class [\d] accepts. *)
Variable unicode_digit : Z -> bool.
Variable unicode_decimal : Z -> bool.

(** The mail account of the script: configuration, kept abstract. *)
Variables SENDER_EMAIL SENDER_PASSWORD RECIPIENT_EMAIL : pystr.

Definition char_isdigit (c : Z) : bool :=
  if is_ascii c then is_ascii_digit c else unicode_digit c.

(** [s.isdigit()]: at least one character and every character a digit. *)
Definition isdigit (s : pystr) : bool :=
  match s with
  | [] => false
  | _ :: _ => forallb char_isdigit s
  end.

(** [\d] on text. *)
Definition re_digit (c : Z) : bool :=
  if is_ascii c then is_ascii_digit c else unicode_decimal c.

(** Up to [n] leading characters of class [\d], greedily. *)
Fixpoint take_digits (n : nat) (s : pystr) : pystr :=
  match n, s with
  | S n', c :: s' => if re_digit c then c :: take_digits n' s' else []
  | _, _ => []
  end.

(** The pattern [bore\.pub:(\d{4,5})] anchored at the head of [s]; the
    result is group 1. *)
Definition match_here (s : pystr) : option pystr :=
  match strip_prefix marker s with
  | Some rest =>
    let g := take_digits 5 rest in
    if (4 <=? length g)%nat then Some g else None
  | None => None
  end.

(** [re.search]: the match at the leftmost position that has one. *)
Fixpoint re_search (s : pystr) : option pystr :=
  match match_here s with
  | Some g => Some g
  | None =>
    match s with
    | [] => None
    | _ :: s' => re_search s'
    end
  end.

Definition fast_url (port : pystr) : pystr :=
  lit "http://bore.pub:" ++ port ++ lit "/opds/all".

Definition fallback_url (port : pystr) : pystr :=
  lit "http://bore.pub:" ++ port ++ lit "/".

(** The body of [if byte:] for one byte read: [inl] goes on with the loop,
    [inr] is the [return] of line 71. *)
Definition on_byte (st : scan_state) (b : byte)
  : scan_state * list action + pystr * list action :=
  let output' := output st ++ [b] in
  let char := Utf8.decode [b] in
  if negb (found_bore_pub st) then
    let decoded := Utf8.decode output' in
    if contains marker decoded then
      inl ({| output := output'; found_bore_pub := true;
              port_digits := port_digits st |},
           [Print (lit "Found 'bore.pub:', capturing port...")])
    else
      inl ({| output := output'; found_bore_pub := false;
              port_digits := port_digits st |}, [])
  else
    if isdigit char then
      inl ({| output := output'; found_bore_pub := true;
              port_digits := port_digits st ++ char |}, [])
    else if negb (Nat.eqb (length (port_digits st)) 0) && negb (isdigit char)
    then
      if (4 <=? length (port_digits st))%nat then
        inr (fast_url (port_digits st),
             [Print (lit "Captured complete port: " ++ port_digits st)])
      else
        inl ({| output := output'; found_bore_pub := true;
                port_digits := port_digits st |}, [])
    else
      inl ({| output := output'; found_bore_pub := true;
              port_digits := port_digits st |}, []).

(** The [while] loop of lines 44-73 over the recorded iterations, in the
    runs where nothing but the read raises; [scan_loop_io] is the loop
    with exceptions at the loop test, in the body and in the handler's
    sleep as well. *)
Fixpoint scan_loop (start_time : Q) (its : list (Q * read_result))
    (st : scan_state) : outcome loop_exit :=
  match its with
  | [] => Pending []
  | (now, r) :: its' =>
    if in_budget start_time now then
      match r with
      | RByte b =>
        match on_byte st b with
        | inl (st', l) => after l (scan_loop start_time its' st')
        | inr (url, l) => Done (FastReturn url) l
        end
      | REmpty => scan_loop start_time its' st
      | RRaise _ => after [Sleep (1 # 100)] (scan_loop start_time its' st)
      end
    else Done (TimedOut st) []
  end.

(** Lines 75-88. *)
Definition fallback (st : scan_state) : outcome (option pystr) :=
  let full_output := Utf8.decode (output st) in
  perform _ <- say (lit "Timeout reached. Searching full output...") ;;
  match re_search full_output with
  | Some port => Done (Some (fallback_url port)) []
  | None => Done None []
  end.

Definition capture_bore_url (env : capture_env)
  : outcome (option pystr * handle) :=
  let env' := env_set "TERM" "dumb" (env_set "NO_COLOR" "1" (os_environ env)) in
  perform _ <- say (lit "Starting bore.exe...") ;;
  match popen env with
  | inr e => Raised e []
  | inl process =>
    perform _ <- Done tt [Spawn process BORE_ARGV env'] ;;
    perform _ <- say (lit "Reading bore output...") ;;
    perform ex <- scan_loop (start_clock env) (iterations env) scan_init ;;
    match ex with
    | FastReturn url => Done (Some url, process) []
    | TimedOut st =>
      perform url <- fallback st ;;
      Done (url, process) []
    end
  end.

(** The [try] block of [send_email], lines 93-104. *)
Definition send_email_body (url : pystr) (env : smtp_env) : outcome bool :=
  let msg :=
    {| mail_body := lit "Your Nostos Web URL:" ++ [10; 10] ++ url ++ [10; 10]
                    ++ lit "Use this to access Nostos from anywhere.";
       mail_subject := [0x1F4DA]
                    ++ lit " Nostos App is online! Here comes the Web URL.";
       mail_from := SENDER_EMAIL;
       mail_to := RECIPIENT_EMAIL |} in
  perform _ <- call (SmtpConnect SMTP_SERVER SMTP_PORT) (connect_r env) ;;
  perform _ <- with_exit
         (perform _ <- call SmtpStartTls (starttls_r env) ;;
          perform _ <- call (SmtpLogin SENDER_EMAIL SENDER_PASSWORD)
                         (login_r env) ;;
          call (SmtpSend msg) (send_r env))
         (call SmtpQuit (quit_r env)) ;;
  perform _ <- say ([0x2705] ++ lit " Email sent to " ++ RECIPIENT_EMAIL) ;;
  Done true [].

Definition email_failed (e : exn) : pystr :=
  [0x274C] ++ lit " Email failed: " ++ exn_str e.

(** [send_email] on a console that takes its two lines; [send_email_io]
    has the console's encoding. *)
Definition send_email (url : pystr) (env : smtp_env) : outcome bool :=
  try_except (send_email_body url env) is_Exception
    (fun e =>
       perform _ <- say (email_failed e) ;;
       Done false []).

(** Truth value of [url] in [if url:]. *)
Definition truthy (url : option pystr) : bool :=
  match url with
  | Some (_ :: _) => true
  | _ => false
  end.

Definition text_of (url : option pystr) : pystr :=
  match url with
  | Some u => u
  | None => lit "None"
  end.

Definition rule : pystr := repeat 61 50.

(** [process.wait()] under [except KeyboardInterrupt]. *)
Definition wait_child (process : handle) (r : option exn) : outcome unit :=
  try_except (call (Wait process) r)
    (fun e => negb (is_Exception e))
    (fun _ =>
       perform _ <- Done tt [Terminate process] ;;
       say ([10] ++ lit "Stopped.")).

(** Lines 109-132, on a console that takes every line; [main_io] has the
    console's encoding and the loop with all its exceptions. *)
Definition main (env : main_env) : outcome unit :=
  perform r <- capture_bore_url (capture env) ;;
  let url := fst r in
  let process := snd r in
  if truthy url then
    perform _ <- say ([10] ++ rule) ;;
    perform _ <- say ([0x1F310] ++ lit " SUCCESS! Bore URL: " ++ text_of url) ;;
    perform _ <- say (rule ++ [10]) ;;
    perform sent <- send_email (text_of url) (smtp env) ;;
    perform _ <- (if sent : bool
          then say ([0x1F4E7] ++ lit " Email sent successfully!")
          else say ([0x26A0; 0xFE0F]
                    ++ lit "  Email failed, but URL is shown above")) ;;
    perform _ <- say ([10] ++ lit "Bore is running. Press Ctrl+C to stop.") ;;
    wait_child process (wait_r env)
  else
    perform _ <- say ([10; 0x274C] ++ lit " Could not capture bore URL automatically") ;;
    perform _ <- say (lit "Running bore directly so you can see the port...") ;;
    perform _ <- say rule ;;
    call (Run BORE_ARGV) (run_r env).

(** ** Vocabulary of the properties *)

Definition is_digit_byte (b : byte) : bool := is_ascii_digit (byte_val b).

Definition digit_bytes (bs : list byte) : Prop :=
  Forall (fun b => is_digit_byte b = true) bs.

Definition no_digit_bytes (bs : list byte) : Prop :=
  Forall (fun b => is_digit_byte b = false) bs.

(** The marker is in the text that the bytes decode to: the test of
    line 57 on a buffer. *)
Definition detected (bs : list byte) : bool :=
  contains marker (Utf8.decode bs).

(** The loop body folded over the bytes read, console output left out:
    the state after the last byte, or the URL of the first [return]. *)
Fixpoint feed (st : scan_state) (bs : list byte) : scan_state + pystr :=
  match bs with
  | [] => inl st
  | b :: bs' =>
    match on_byte st b with
    | inl (st', _) => feed st' bs'
    | inr (url, _) => inr url
    end
  end.

(** The bytes that the loop reads: those delivered in the iterations that
    come before the first loop test that finds the budget used up. *)
Fixpoint budget_reads (start_time : Q) (its : list (Q * read_result))
  : list byte :=
  match its with
  | [] => []
  | (now, r) :: its' =>
    if in_budget start_time now then
      match r with
      | RByte b => b :: budget_reads start_time its'
      | _ => budget_reads start_time its'
      end
    else []
  end.

(** The bytes that the child writes, read in time or not. *)
Fixpoint written (its : list (Q * read_result)) : list byte :=
  match its with
  | [] => []
  | (_, RByte b) :: its' => b :: written its'
  | _ :: its' => written its'
  end.

(** Some recorded loop test finds the budget used up. *)
Fixpoint expires (start_time : Q) (its : list (Q * read_result)) : bool :=
  match its with
  | [] => false
  | (now, _) :: its' =>
    if in_budget start_time now then expires start_time its' else true
  end.

Definition stream (env : capture_env) : list byte :=
  budget_reads (start_clock env) (iterations env).

Definition timed_out (env : capture_env) : bool :=
  expires (start_clock env) (iterations env).

Definition with_iterations (env : capture_env)
    (its : list (Q * read_result)) : capture_env :=
  {| os_environ := os_environ env; popen := popen env;
     start_clock := start_clock env; iterations := its |}.

Definition ascii_digits (s : pystr) : Prop :=
  Forall (fun c => is_ascii_digit c = true) s.

Definition digits_text (s : pystr) : Prop :=
  Forall (fun c => re_digit c = true) s.

(** The text is over, or goes on with a character outside [\d]. *)
Definition run_ends (post : pystr) : Prop :=
  match post with
  | [] => True
  | c :: _ => re_digit c = false
  end.

(** The pattern matches [text] behind [pre], with [g] as its group: the
    marker, then four or five characters of [\d], five whenever there
    are five. *)
Definition match_at (text pre g : pystr) : Prop :=
  exists post,
    text = pre ++ marker ++ g ++ post /\
    digits_text g /\
    (4 <= length g <= 5)%nat /\
    (length g = 5%nat \/ run_ends post).

Definition no_Terminate (l : list action) : Prop :=
  Forall (fun a => is_Terminate a = false) l.

Definition smtp_ok (env : smtp_env) : bool :=
  match connect_r env, starttls_r env, login_r env, send_r env, quit_r env with
  | None, None, None, None, None => true
  | _, _, _, _, _ => false
  end.

(** Every step that fails does so with a subclass of [Exception]. *)
Definition smtp_failures (env : smtp_env) : Prop :=
  forall r e,
    In r [connect_r env; starttls_r env; login_r env; send_r env; quit_r env] ->
    r = Some e -> is_Exception e = true.

(** What a run comes to, the log left out: a value, an exception, or
    nothing yet. *)
Definition result_of {A} (o : outcome A) : option (A + exn) :=
  match o with
  | Done a _ => Some (inl a)
  | Raised e _ => Some (inr e)
  | Pending _ => None
  end.

(** [env.get(k)] on the association list. *)
Fixpoint env_get (k : string) (env : list (string * string))
  : option string :=
  match env with
  | [] => None
  | (k', v) :: env' => if String.eqb k k' then Some v else env_get k env'
  end.

(** The digits among the bytes, as text. *)
Definition digits_of (bs : list byte) : pystr :=
  map byte_val (filter is_digit_byte bs).



(** What [capture_bore_url] does to the world: it prints, spawns and
    sleeps. *)
Definition capture_action (a : action) : bool :=
  match a with
  | Print _ | Spawn _ _ _ | Sleep _ => true
  | _ => false
  end.

Definition mail_action (a : action) : bool :=
  match a with
  | SmtpConnect _ _ | SmtpStartTls | SmtpLogin _ _ | SmtpSend _ | SmtpQuit =>
    true
  | _ => false
  end.

(** The child is neither waited for nor asked to terminate. *)
Definition child_untouched (l : list action) : Prop :=
  Forall (fun a => match a with
                   | Wait _ | Terminate _ => False
                   | _ => True
                   end) l.

(** The message of line 93-96. *)
Definition message (url : pystr) : email :=
  {| mail_body := lit "Your Nostos Web URL:" ++ [10; 10] ++ url ++ [10; 10]
                  ++ lit "Use this to access Nostos from anywhere.";
     mail_subject := [0x1F4DA]
                  ++ lit " Nostos App is online! Here comes the Web URL.";
     mail_from := SENDER_EMAIL;
     mail_to := RECIPIENT_EMAIL |}.

(** The mail session as far as it gets: each step is attempted when the
    steps before it succeeded, and [QUIT] closes every session that was
    opened. *)
Definition mail_steps (url : pystr) (env : smtp_env) : list action :=
  SmtpConnect SMTP_SERVER SMTP_PORT ::
  match connect_r env with
  | Some _ => []
  | None =>
    SmtpStartTls ::
    match starttls_r env with
    | Some _ => []
    | None =>
      SmtpLogin SENDER_EMAIL SENDER_PASSWORD ::
      match login_r env with
      | Some _ => []
      | None => [SmtpSend (message url)]
      end
    end ++ [SmtpQuit]
  end.

Import Utf8.

(** Case analysis on the comparisons of a goal about byte values. *)
Ltac z_bools :=
  unfold is_ascii, is_ascii_digit, is_cont, bad_second3, bad_second4 in *;
  repeat match goal with
  | H : context [?a <? ?b] |- _ => destruct (Z.ltb_spec a b)
  | H : context [?a <=? ?b] |- _ => destruct (Z.leb_spec a b)
  | H : context [?a =? ?b] |- _ => destruct (Z.eqb_spec a b)
  | |- context [?a <? ?b] => destruct (Z.ltb_spec a b)
  | |- context [?a <=? ?b] => destruct (Z.leb_spec a b)
  | |- context [?a =? ?b] => destruct (Z.eqb_spec a b)
  end;
  simpl in *; try discriminate; try lia.

(** ** The first detection *)

(** [p] is the shortest prefix of what is read whose decoding holds the
    marker: the test of line 57 succeeds on [p] and has not succeeded on
    [p] without its last byte. *)
Definition first_detected (p : list byte) : Prop :=
  detected p = true /\ detected (removelast p) = false.

(** The marker as a run of bytes: [b'bore.pub:' in bs]. *)
Definition marker_in_bytes (bs : list byte) : bool :=
  contains marker (map byte_val bs).

(** ** The calls that fail *)

(** The definitions up to here run the program where only [Popen], the
    read of line 47, the mail steps, [process.wait()] and
    [subprocess.run] raise, and where the console takes every character.
    The definitions below run it with the other failures too: an
    exception can arrive at the loop test (line 44), at a line of the
    loop body (lines 49-70) and in the handler's sleep (line 73), and
    [print] raises [UnicodeEncodeError] on a character that the encoding
    of [sys.stdout] lacks.  Without such failures the two agree
    ([scan_loop_io_plain], [capture_io_plain], [send_email_io_plain],
    [main_io_plain]). *)

(** The encoding of [sys.stdout]: the characters beyond ASCII that it
    has, and the text of the [UnicodeEncodeError] that its codec raises
    on a string with a character that it lacks.  The encoding is taken to
    contain ASCII. *)
Record encoding := {
  has_char : Z -> bool;
  error_text : pystr -> pystr
}.

(** The lines of the loop body at which an exception can arrive. *)
Inductive line :=
| L49 | L50 | L56 | L57 | L59 | L64 | L65 | L66 | L68 | L69 | L70.

Definition line_eqb (a b : line) : bool :=
  match a, b with
  | L49, L49 | L50, L50 | L56, L56 | L57, L57 | L59, L59 | L64, L64
  | L65, L65 | L66, L66 | L68, L68 | L69, L69 | L70, L70 => true
  | _, _ => false
  end.

(** One iteration of the loop: the clock reading of the loop test or the
    exception that arrives there, what the read gives, the exception that
    arrives at one line of the body should control reach that line, and
    what the handler's sleep does should it be called. *)
Record step_env := {
  loop_test : Q + exn;
  read_r : read_result;
  fault : option (line * exn);
  sleep_r : option exn
}.

Definition at_line (f : option (line * exn)) (l : line) : option exn :=
  match f with
  | Some (l', e) => if line_eqb l l' then Some e else None
  | None => None
  end.

(** How the body of [if byte:] ends: the loop goes on, the function
    returns, or an exception reaches the [except] of line 72. *)
Inductive body_exit :=
| GoesOn (st : scan_state) (log : list action)
| Returns (url : pystr) (log : list action)
| Caught (e : exn) (st : scan_state) (log : list action).

(** Lines 49-71 for one byte read.  An exception that arrives in the inner
    [try] of lines 55-59 is dropped by its [except: pass]. *)
Definition on_byte_io (f : option (line * exn)) (st : scan_state) (b : byte)
  : body_exit :=
  let output' := output st ++ [b] in
  let st1 := {| output := output'; found_bore_pub := found_bore_pub st;
                port_digits := port_digits st |} in
  match at_line f L49 with
  | Some e => Caught e st []
  | None =>
  match at_line f L50 with
  | Some e => Caught e st1 []
  | None =>
    let char := Utf8.decode [b] in
    if negb (found_bore_pub st) then
      match at_line f L56 with
      | Some _ => GoesOn st1 []
      | None =>
        let decoded := Utf8.decode output' in
        match at_line f L57 with
        | Some _ => GoesOn st1 []
        | None =>
          if contains marker decoded then
            let st2 := {| output := output'; found_bore_pub := true;
                          port_digits := port_digits st |} in
            match at_line f L59 with
            | Some _ => GoesOn st2 []
            | None =>
              GoesOn st2 [Print (lit "Found 'bore.pub:', capturing port...")]
            end
          else GoesOn st1 []
        end
      end
    else
      match at_line f L64 with
      | Some e => Caught e st1 []
      | None =>
        if isdigit char then
          match at_line f L65 with
          | Some e => Caught e st1 []
          | None =>
            GoesOn {| output := output'; found_bore_pub := found_bore_pub st;
                      port_digits := port_digits st ++ char |} []
          end
        else
          match at_line f L66 with
          | Some e => Caught e st1 []
          | None =>
            if negb (Nat.eqb (length (port_digits st)) 0)
               && negb (isdigit char)
            then
              match at_line f L68 with
              | Some e => Caught e st1 []
              | None =>
                if (4 <=? length (port_digits st))%nat then
                  match at_line f L69 with
                  | Some e => Caught e st1 []
                  | None =>
                    match at_line f L70 with
                    | Some e => Caught e st1 []
                    | None =>
                      Returns (fast_url (port_digits st))
                        [Print (lit "Captured complete port: "
                                ++ port_digits st)]
                    end
                  end
                else GoesOn st1 []
              end
            else GoesOn st1 []
          end
      end
  end
  end.

(** Lines 72-73: the handler calls [time.sleep(0.01)], outside any
    [try]. *)
Definition on_except {A} (sl : option exn) (k : outcome A) : outcome A :=
  match sl with
  | None => after [Sleep (1 # 100)] k
  | Some e => Raised e [Sleep (1 # 100)]
  end.

(** The [while] loop of lines 44-73; the loop test is outside the
    [try]. *)
Fixpoint scan_loop_io (start_time : Q) (its : list step_env)
    (st : scan_state) : outcome loop_exit :=
  match its with
  | [] => Pending []
  | it :: its' =>
    match loop_test it with
    | inr e => Raised e []
    | inl now =>
      if in_budget start_time now then
        match read_r it with
        | RByte b =>
          match on_byte_io (fault it) st b with
          | GoesOn st' l => after l (scan_loop_io start_time its' st')
          | Returns url l => Done (FastReturn url) l
          | Caught _ st' l =>
            after l (on_except (sleep_r it) (scan_loop_io start_time its' st'))
          end
        | REmpty => scan_loop_io start_time its' st
        | RRaise _ => on_except (sleep_r it) (scan_loop_io start_time its' st)
        end
      else Done (TimedOut st) []
    end
  end.

Record capture_io_env := {
  io_environ : list (string * string);
  io_popen : handle + exn;
  io_start : Q;
  io_steps : list step_env
}.

(** [capture_bore_url]; the lines it prints are ASCII, which every console
    takes. *)
Definition capture_bore_url_io (env : capture_io_env)
  : outcome (option pystr * handle) :=
  let env' := env_set "TERM" "dumb" (env_set "NO_COLOR" "1" (io_environ env)) in
  perform _ <- say (lit "Starting bore.exe...") ;;
  match io_popen env with
  | inr e => Raised e []
  | inl process =>
    perform _ <- Done tt [Spawn process BORE_ARGV env'] ;;
    perform _ <- say (lit "Reading bore output...") ;;
    perform ex <- scan_loop_io (io_start env) (io_steps env) scan_init ;;
    match ex with
    | FastReturn url => Done (Some url, process) []
    | TimedOut st =>
      perform url <- fallback st ;;
      Done (url, process) []
    end
  end.

Section Console.

Variable console : encoding.

Definition encodable (c : Z) : bool := is_ascii c || has_char console c.

Definition printable (s : pystr) : bool := forallb encodable s.

(** The exception of a [print] that fails on [s]. *)
Definition UnicodeEncodeError (s : pystr) : exn :=
  PyException (error_text console s).

(** [print(s)] on that console: the text is encoded before anything is
    written. *)
Definition say_io (s : pystr) : outcome unit :=
  if printable s then Done tt [Print s] else Raised (UnicodeEncodeError s) [].

Definition email_sent : pystr :=
  [0x2705] ++ lit " Email sent to " ++ RECIPIENT_EMAIL.

(** [send_email], its two prints on the console: the one of line 103 is
    inside the [try], the one of line 106 is in the handler. *)
Definition send_email_io (url : pystr) (env : smtp_env) : outcome bool :=
  try_except
    (perform _ <- call (SmtpConnect SMTP_SERVER SMTP_PORT) (connect_r env) ;;
     perform _ <- with_exit
            (perform _ <- call SmtpStartTls (starttls_r env) ;;
             perform _ <- call (SmtpLogin SENDER_EMAIL SENDER_PASSWORD)
                            (login_r env) ;;
             call (SmtpSend (message url)) (send_r env))
            (call SmtpQuit (quit_r env)) ;;
     perform _ <- say_io email_sent ;;
     Done true [])
    is_Exception
    (fun e =>
       perform _ <- say_io (email_failed e) ;;
       Done false []).

Record io_env := {
  io_capture : capture_io_env;
  io_smtp : smtp_env;
  io_wait : option exn;
  io_run : option exn
}.

Definition success_line (url : pystr) : pystr :=
  [0x1F310] ++ lit " SUCCESS! Bore URL: " ++ url.

Definition mail_sent_line : pystr :=
  [0x1F4E7] ++ lit " Email sent successfully!".

Definition mail_failed_line : pystr :=
  [0x26A0; 0xFE0F] ++ lit "  Email failed, but URL is shown above".

Definition no_url_line : pystr :=
  [10; 0x274C] ++ lit " Could not capture bore URL automatically".

(** Lines 109-132. *)
Definition main_io (env : io_env) : outcome unit :=
  perform r <- capture_bore_url_io (io_capture env) ;;
  let url := fst r in
  let process := snd r in
  if truthy url then
    perform _ <- say_io ([10] ++ rule) ;;
    perform _ <- say_io (success_line (text_of url)) ;;
    perform _ <- say_io (rule ++ [10]) ;;
    perform sent <- send_email_io (text_of url) (io_smtp env) ;;
    perform _ <- (if sent : bool
          then say_io mail_sent_line
          else say_io mail_failed_line) ;;
    perform _ <- say_io ([10] ++ lit "Bore is running. Press Ctrl+C to stop.") ;;
    wait_child process (io_wait env)
  else
    perform _ <- say_io no_url_line ;;
    perform _ <- say_io (lit "Running bore directly so you can see the port...") ;;
    perform _ <- say_io rule ;;
    call (Run BORE_ARGV) (io_run env).

End Console.

(** The exception that leaves the mail session, if any: the one of the
    connection, else the one of the exit of the [with] block, else the
    one of the first step of the block that fails. *)
Definition mail_exception (env : smtp_env) : option exn :=
  match connect_r env with
  | Some e => Some e
  | None =>
    match quit_r env with
    | Some e => Some e
    | None =>
      match starttls_r env with
      | Some e => Some e
      | None =>
        match login_r env with
        | Some e => Some e
        | None => send_r env
        end
      end
    end
  end.

(** A run without the failures above. *)
Definition plain_step (it : Q * read_result) : step_env :=
  {| loop_test := inl (fst it); read_r := snd it;
     fault := None; sleep_r := None |}.

Definition plain_capture (env : capture_env) : capture_io_env :=
  {| io_environ := os_environ env; io_popen := popen env;
     io_start := start_clock env;
     io_steps := map plain_step (iterations env) |}.

Definition plain_main (env : main_env) : io_env :=
  {| io_capture := plain_capture (capture env); io_smtp := smtp env;
     io_wait := wait_r env; io_run := run_r env |}.







(** ** Sample runs with failing calls *)

(** The text of a [UnicodeEncodeError], as the codecs word it: the first
    run of characters without an encoding, by position, and the character
    itself when the run is a single one. *)
Definition hex_digit (d : Z) : Z := if d <? 10 then 48 + d else 87 + d.

Fixpoint hex (n : nat) (c : Z) : pystr :=
  match n with
  | O => []
  | S n' => hex n' (c / 16) ++ [hex_digit (c mod 16)]
  end.

Definition escaped (c : Z) : pystr :=
  if c <? 0x100 then lit "\x" ++ hex 2 c
  else if c <? 0x10000 then lit "\u" ++ hex 4 c
  else lit "\U" ++ hex 8 c.

Definition decimal (n : nat) : pystr :=
  lit (NilZero.string_of_uint (Nat.to_uint n)).

Fixpoint bad_run (ok : Z -> bool) (s : pystr) : nat :=
  match s with
  | c :: s' => if ok c then O else S (bad_run ok s')
  | [] => O
  end.

Fixpoint first_bad (ok : Z -> bool) (s : pystr) (i : nat)
  : option (nat * Z * nat) :=
  match s with
  | [] => None
  | c :: s' =>
    if ok c then first_bad ok s' (S i) else Some (i, c, bad_run ok s)
  end.

Definition codec_error (codec reason : string) (ok : Z -> bool) (s : pystr)
  : pystr :=
  match first_bad ok s 0 with
  | None => []
  | Some (i, c, 1%nat) =>
    lit "'" ++ lit codec ++ lit "' codec can't encode character '"
    ++ escaped c ++ lit "' in position " ++ decimal i ++ lit ": " ++ lit reason
  | Some (i, _, n) =>
    lit "'" ++ lit codec ++ lit "' codec can't encode characters in position "
    ++ decimal i ++ lit "-" ++ decimal (i + n - 1) ++ lit ": " ++ lit reason
  end.

(** A console in cp1252, the legacy encoding of a Windows console in
    Western Europe. *)
Definition cp1252_has (c : Z) : bool :=
  is_ascii c
  || ((0xA0 <=? c) && (c <=? 0xFF))
  || existsb (Z.eqb c)
       [0x152; 0x153; 0x160; 0x161; 0x178; 0x17D; 0x17E; 0x192; 0x2C6;
        0x2DC; 0x2013; 0x2014; 0x2018; 0x2019; 0x201A; 0x201C; 0x201D;
        0x201E; 0x2020; 0x2021; 0x2022; 0x2026; 0x2030; 0x2039; 0x203A;
        0x20AC; 0x2122].

Definition cp1252_console : encoding :=
  {| has_char := cp1252_has;
     error_text :=
       codec_error "charmap" "character maps to <undefined>" cp1252_has |}.

(** A console in UTF-8, which has every character but the surrogates. *)
Definition utf8_has (c : Z) : bool := negb ((0xD800 <=? c) && (c <=? 0xDFFF)).

Definition utf8_console : encoding :=
  {| has_char := utf8_has;
     error_text :=
       codec_error "utf-8" "surrogates not allowed"
         (fun c => is_ascii c || utf8_has c) |}.

(** The child is up at second 0 and the loop makes the given
    iterations. *)
Definition io_sample (steps : list step_env) : capture_io_env :=
  {| io_environ := []; io_popen := inl 7%nat; io_start := 0;
     io_steps := steps |}.

(** One byte read at a given second, with an exception on its way. *)
Definition byte_step (now : Q) (b : byte) (f : option (line * exn))
  : step_env :=
  {| loop_test := inl now; read_r := RByte b; fault := f; sleep_r := None |}.


(** A loop test, with nothing to read behind it. *)
Definition test_step (t : Q + exn) : step_env :=
  {| loop_test := t; read_r := REmpty; fault := None; sleep_r := None |}.

Definition io_main (steps : list step_env) (mail : smtp_env)
    (w : option exn) : io_env :=
  {| io_capture := io_sample steps; io_smtp := mail; io_wait := w;
     io_run := None |}.

(** * Properties *)

(** ** The decoder *)

Lemma decode_cons (b0 : byte) (t0 : list byte) :
  decode (b0 :: t0) =
    if byte_val b0 <? 0x80 then byte_val b0 :: decode t0
    else if byte_val b0 <? 0xC2 then decode t0
    else if byte_val b0 <? 0xE0 then
      match t0 with
      | [] => []
      | b1 :: t1 =>
        if is_cont (byte_val b1) then cp2 (byte_val b0) (byte_val b1) :: decode t1
        else decode t0
      end
    else if byte_val b0 <? 0xF0 then
      match t0 with
      | [] => []
      | b1 :: t1 =>
        if bad_second3 (byte_val b0) (byte_val b1) then decode t0
        else
          match t1 with
          | [] => []
          | b2 :: t2 =>
            if is_cont (byte_val b2)
            then cp3 (byte_val b0) (byte_val b1) (byte_val b2) :: decode t2
            else decode t1
          end
      end
    else if byte_val b0 <? 0xF5 then
      match t0 with
      | [] => []
      | b1 :: t1 =>
        if bad_second4 (byte_val b0) (byte_val b1) then decode t0
        else
          match t1 with
          | [] => []
          | b2 :: t2 =>
            if negb (is_cont (byte_val b2)) then decode t1
            else
              match t2 with
              | [] => []
              | b3 :: t3 =>
                if is_cont (byte_val b3)
                then cp4 (byte_val b0) (byte_val b1) (byte_val b2) (byte_val b3)
                     :: decode t3
                else decode t2
              end
          end
      end
    else decode t0.
Proof. reflexivity. Qed.

Lemma ascii_not_cont c : (c <? 0x80) = true -> is_cont c = false.
Proof.
  unfold is_cont. intros H. apply Z.ltb_lt in H.
  destruct (0x80 <=? c) eqn:E; [apply Z.leb_le in E; lia | reflexivity].
Qed.

Lemma ascii_bad_second3 c0 c : (c <? 0x80) = true -> bad_second3 c0 c = true.
Proof. intros H. unfold bad_second3. now rewrite (ascii_not_cont _ H). Qed.

Lemma ascii_bad_second4 c0 c : (c <? 0x80) = true -> bad_second4 c0 c = true.
Proof. intros H. unfold bad_second4. now rewrite (ascii_not_cont _ H). Qed.

Lemma decode_ascii_cons a r :
  (byte_val a <? 0x80) = true -> decode (a :: r) = byte_val a :: decode r.
Proof. intros H. rewrite decode_cons, H. reflexivity. Qed.


(** Decoding resynchronises at every ASCII byte: what precedes the byte
    decodes on its own, whatever follows it. *)
Lemma decode_app_ascii_bounded n :
  forall l a r, (length l <= n)%nat -> (byte_val a <? 0x80) = true ->
  decode (l ++ a :: r) = decode l ++ byte_val a :: decode r.
Proof.
  induction n as [|n IH]; intros l a r Hl Ha.
  { destruct l; [|simpl in Hl; lia]. now apply decode_ascii_cons. }
  destruct l as [|b0 t0]; [now apply decode_ascii_cons|].
  pose proof (ascii_not_cont _ Ha) as Hc.
  assert (Hstep : forall t, (length t <= n)%nat ->
            decode (t ++ a :: r) = decode t ++ byte_val a :: decode r)
    by (intros; now apply IH).
  pose proof (decode_ascii_cons a r Ha) as Hnil.
  clear IH.
  change ((b0 :: t0) ++ a :: r) with (b0 :: (t0 ++ a :: r)).
  rewrite (decode_cons b0 (t0 ++ a :: r)), (decode_cons b0 t0).
  simpl in Hl.
  destruct (byte_val b0 <? 0x80); [rewrite Hstep by lia; reflexivity|].
  destruct (byte_val b0 <? 0xC2); [apply Hstep; lia|].
  destruct (byte_val b0 <? 0xE0).
  { destruct t0 as [|b1 t1]; simpl app; cbv beta match.
    - now rewrite Hc.
    - simpl in Hl. destruct (is_cont (byte_val b1)).
      + rewrite Hstep by lia. reflexivity.
      + apply (Hstep (b1 :: t1)). simpl; lia. }
  destruct (byte_val b0 <? 0xF0).
  { destruct t0 as [|b1 t1]; simpl app; cbv beta match.
    - now rewrite (ascii_bad_second3 _ _ Ha).
    - simpl in Hl. destruct (bad_second3 (byte_val b0) (byte_val b1)).
      + apply (Hstep (b1 :: t1)). simpl; lia.
      + destruct t1 as [|b2 t2]; simpl app; cbv beta match.
        * now rewrite Hc.
        * simpl in Hl. destruct (is_cont (byte_val b2)).
          -- rewrite Hstep by lia. reflexivity.
          -- apply (Hstep (b2 :: t2)). simpl; lia. }
  destruct (byte_val b0 <? 0xF5).
  { destruct t0 as [|b1 t1]; simpl app; cbv beta match.
    - now rewrite (ascii_bad_second4 _ _ Ha).
    - simpl in Hl. destruct (bad_second4 (byte_val b0) (byte_val b1)).
      + apply (Hstep (b1 :: t1)). simpl; lia.
      + destruct t1 as [|b2 t2]; simpl app; cbv beta match.
        * now rewrite Hc.
        * simpl in Hl. destruct (is_cont (byte_val b2)); simpl negb; cbv iota.
          -- destruct t2 as [|b3 t3]; simpl app; cbv beta match.
             ++ now rewrite Hc.
             ++ simpl in Hl. destruct (is_cont (byte_val b3)).
                ** rewrite Hstep by lia. reflexivity.
                ** apply (Hstep (b3 :: t3)). simpl; lia.
          -- apply (Hstep (b2 :: t2)). simpl; lia. }
  apply Hstep; lia.
Qed.

Lemma decode_app_ascii l a r :
  (byte_val a <? 0x80) = true ->
  decode (l ++ a :: r) = decode l ++ byte_val a :: decode r.
Proof. apply (decode_app_ascii_bounded (length l)). lia. Qed.

Lemma decode_high_bounded n :
  forall l, (length l <= n)%nat ->
  Forall (fun b => 0x80 <= byte_val b) l ->
  Forall (fun c => 0x80 <= c) (decode l).
Proof.
  induction n as [|n IH]; intros l Hl Hh.
  { destruct l; [constructor | simpl in Hl; lia]. }
  destruct l as [|b0 t0]; [constructor|].
  rewrite decode_cons.
  repeat match goal with
  | H : Forall _ (_ :: _) |- _ => inversion H; clear H; subst
  | |- Forall _ [] => constructor
  | |- Forall _ (decode _) => apply IH; [simpl in *; lia | auto]
  | |- Forall _ (_ :: _) => constructor
  | |- context [match ?t with [] => _ | _ :: _ => _ end] => destruct t
  | |- context [if ?c then _ else _] => destruct c eqn:?
  end.
  all: try (unfold cp2, cp3, cp4; z_bools).
Qed.

Lemma decode_high l :
  Forall (fun b => 0x80 <= byte_val b) l ->
  Forall (fun c => 0x80 <= c) (decode l).
Proof. apply (decode_high_bounded (length l)). lia. Qed.

(** One byte decodes to itself when it is ASCII and to nothing otherwise:
    [char] of line 50. *)
Lemma decode_single b :
  decode [b] = if byte_val b <? 0x80 then [byte_val b] else [].
Proof.
  rewrite decode_cons. simpl.
  repeat match goal with
  | |- context [if ?c then _ else _] => destruct c
  end; reflexivity.
Qed.

Lemma decode_ascii_bytes l :
  Forall (fun b => byte_val b < 0x80) l -> decode l = map byte_val l.
Proof.
  induction 1 as [|b l Hb _ IH]; [reflexivity|].
  rewrite decode_ascii_cons by (now apply Z.ltb_lt). simpl. now rewrite IH.
Qed.

(** Every buffer is without ASCII bytes, or has a last ASCII byte. *)
Lemma last_ascii_split (l : list byte) :
  Forall (fun b => 0x80 <= byte_val b) l \/
  exists l1 a l2, l = l1 ++ a :: l2 /\ (byte_val a <? 0x80) = true /\
                  Forall (fun b => 0x80 <= byte_val b) l2.
Proof.
  induction l as [|b l IH]; [left; constructor|].
  destruct IH as [Hh | (l1 & a & l2 & -> & Ha & Hh)].
  - destruct (Z.ltb_spec (byte_val b) 0x80) as [Hb|Hb].
    + right. exists [], b, l. repeat split; auto. now apply Z.ltb_lt.
    + left. constructor; assumption.
  - right. exists (b :: l1), a, l2. repeat split; auto.
Qed.

(** ** Substrings *)

Lemma starts_with_refl m : starts_with m m = true.
Proof. induction m; simpl; [reflexivity|]. now rewrite Z.eqb_refl. Qed.

Lemma starts_with_app m s t :
  starts_with m s = true -> starts_with m (s ++ t) = true.
Proof.
  revert s. induction m as [|x m IH]; intros [|c s]; simpl; try easy.
  intros H. apply andb_prop in H as [-> H]. simpl. now apply IH.
Qed.

Lemma starts_with_spec m s :
  starts_with m s = true <-> exists t, s = m ++ t.
Proof.
  revert s. induction m as [|x m IH]; intros s; simpl.
  - split; [exists s; reflexivity | reflexivity].
  - destruct s as [|c s].
    + split; [discriminate | intros [t Ht]; discriminate].
    + rewrite andb_true_iff, Z.eqb_eq, IH. split.
      * intros [-> [t ->]]. now exists t.
      * intros [t Ht]. injection Ht as -> ->. split; [reflexivity | now exists t].
Qed.

(** An occurrence cannot reach into text that lacks the last character of
    the needle. *)
Lemma starts_with_app_no_last m z s t :
  ~ In z t ->
  starts_with (m ++ [z]) (s ++ t) = starts_with (m ++ [z]) s.
Proof.
  intros Hz. revert s. induction m as [|x m IH]; intros s.
  - destruct s as [|c s]; simpl; [|reflexivity].
    destruct t as [|y t]; [reflexivity|]. simpl.
    destruct (Z.eqb_spec z y) as [->|]; [|reflexivity].
    exfalso. apply Hz. now left.
  - destruct s as [|c s]; simpl.
    + destruct t as [|y t]; [reflexivity|].
      assert (Hy : ~ In z t) by (intros Hin; apply Hz; now right).
      clear IH. simpl.
      assert (H : starts_with (m ++ [z]) t = false).
      { clear Hz. revert t Hy. induction m as [|x' m IH]; intros t Hy.
        - destruct t as [|y' t]; [reflexivity|]. simpl.
          destruct (Z.eqb_spec z y') as [->|]; [|reflexivity].
          exfalso. apply Hy. now left.
        - destruct t as [|y' t]; [reflexivity|]. simpl.
          rewrite IH; [apply andb_false_r|].
          intros Hin. apply Hy. now right. }
      rewrite H. apply andb_false_r.
    + now rewrite IH.
Qed.

Lemma contains_nil_r m z : contains (m ++ [z]) [] = false.
Proof. destruct m; reflexivity. Qed.

Lemma contains_cons m c s :
  contains m (c :: s) = starts_with m (c :: s) || contains m s.
Proof. reflexivity. Qed.

Lemma contains_app_no_last m z s t :
  ~ In z t ->
  contains (m ++ [z]) (s ++ t) = contains (m ++ [z]) s.
Proof.
  intros Hz. induction s as [|c s IH].
  - rewrite contains_nil_r. simpl app.
    induction t as [|y t IHt]; [apply contains_nil_r|].
    pose proof (starts_with_app_no_last m z [] (y :: t) Hz) as E.
    simpl app in E.
    rewrite contains_cons, E, IHt by (intros Hin; apply Hz; now right).
    destruct m; reflexivity.
  - change ((c :: s) ++ t) with (c :: (s ++ t)).
    rewrite !contains_cons, IH.
    change (c :: (s ++ t)) with ((c :: s) ++ t).
    now rewrite starts_with_app_no_last.
Qed.

Lemma contains_app_l m s t :
  contains m s = true -> contains m (s ++ t) = true.
Proof.
  induction s as [|c s IH]; simpl.
  - rewrite orb_false_r. intros H. destruct m; [|discriminate].
    destruct t; reflexivity.
  - intros H. apply orb_prop in H as [H|H].
    + change (c :: s ++ t) with ((c :: s) ++ t).
      now rewrite starts_with_app.
    + rewrite IH by assumption. apply orb_true_r.
Qed.

Lemma contains_app_r m s t :
  contains m t = true -> contains m (s ++ t) = true.
Proof.
  intros H. induction s as [|c s IH]; [assumption|].
  simpl. rewrite IH. apply orb_true_r.
Qed.

Lemma contains_starts m s : starts_with m s = true -> contains m s = true.
Proof. intros H. destruct s; simpl; now rewrite H. Qed.

Lemma contains_spec m s :
  contains m s = true <-> exists pre post, s = pre ++ m ++ post.
Proof.
  split.
  - induction s as [|c s IH]; simpl.
    + rewrite orb_false_r. intros H. apply starts_with_spec in H as [t Ht].
      now exists [], t.
    + intros H. apply orb_prop in H as [H|H].
      * apply starts_with_spec in H as [t Ht]. now exists [], t.
      * destruct (IH H) as (pre & post & ->). now exists (c :: pre), post.
  - intros (pre & post & ->). apply contains_app_r, contains_starts.
    apply starts_with_spec. now exists post.
Qed.

(** ** The marker *)

Lemma marker_split : marker = lit "bore.pub" ++ [58].
Proof. reflexivity. Qed.

Lemma marker_bytes_split : marker_bytes = bytes_lit "bore.pub" ++ [x3a].
Proof. reflexivity. Qed.

Lemma marker_bytes_eq :
  marker_bytes = [x62; x6f; x72; x65; x2e; x70; x75; x62; x3a].
Proof. reflexivity. Qed.

Lemma stem_bytes_eq :
  bytes_lit "bore.pub" = [x62; x6f; x72; x65; x2e; x70; x75; x62].
Proof. reflexivity. Qed.

Lemma decode_app_marker pre r :
  decode (pre ++ marker_bytes ++ r) = decode pre ++ marker ++ decode r.
Proof.
  rewrite marker_bytes_eq. simpl app.
  rewrite decode_app_ascii by reflexivity.
  repeat (rewrite decode_ascii_cons by reflexivity).
  reflexivity.
Qed.

Lemma decode_app_stem pre :
  decode (pre ++ bytes_lit "bore.pub") = decode pre ++ lit "bore.pub".
Proof.
  rewrite stem_bytes_eq.
  rewrite decode_app_ascii by reflexivity.
  repeat (rewrite decode_ascii_cons by reflexivity).
  reflexivity.
Qed.

(** Text decoded from bytes without ASCII holds no marker, and adds none
    behind other text. *)
Lemma contains_marker_high s t :
  Forall (fun c => 0x80 <= c) t ->
  contains marker (s ++ t) = contains marker s.
Proof.
  intros Ht. rewrite marker_split. apply contains_app_no_last.
  intros Hin. rewrite Forall_forall in Ht. apply Ht in Hin. lia.
Qed.

(** ** Detection of the marker *)

(** Once the buffer decodes to text with the marker, every longer buffer
    does. *)
Lemma detected_mono p q : detected p = true -> detected (p ++ q) = true.
Proof.
  unfold detected. intros H.
  destruct (last_ascii_split p) as [Hh | (l1 & a & l2 & -> & Ha & Hh)].
  - apply decode_high in Hh.
    rewrite <- (app_nil_l (decode p)), contains_marker_high in H by assumption.
    discriminate.
  - rewrite <- app_assoc. simpl app.
    rewrite decode_app_ascii in * by assumption.
    change (decode l1 ++ byte_val a :: decode l2)
      with (decode l1 ++ [byte_val a] ++ decode l2) in H.
    rewrite app_assoc, contains_marker_high in H by (now apply decode_high).
    change (decode l1 ++ byte_val a :: decode (l2 ++ q))
      with (decode l1 ++ [byte_val a] ++ decode (l2 ++ q)).
    rewrite app_assoc. now apply contains_app_l.
Qed.

Lemma undetected_prefix p q : detected (p ++ q) = false -> detected p = false.
Proof.
  intros H. destruct (detected p) eqn:E; [|reflexivity].
  now rewrite (detected_mono p q E) in H.
Qed.

(** Before the colon of an occurrence is read, the occurrence is not
    detected. *)
Lemma undetected_stem pre :
  detected pre = false -> detected (pre ++ bytes_lit "bore.pub") = false.
Proof.
  unfold detected. intros H. rewrite decode_app_stem, marker_split.
  rewrite contains_app_no_last; [now rewrite <- marker_split|].
  cbv. intuition discriminate.
Qed.

Lemma detected_marker pre r : detected (pre ++ marker_bytes ++ r) = true.
Proof.
  unfold detected. rewrite decode_app_marker.
  apply contains_app_r, contains_starts, starts_with_spec. now eexists.
Qed.

(** ** The fallback pattern *)

Lemma strip_prefix_spec p s r : strip_prefix p s = Some r <-> s = p ++ r.
Proof.
  revert s. induction p as [|x p IH]; intros s; simpl.
  - split; [now intros [= ->] | now intros ->].
  - destruct s as [|c s]; [split; discriminate|].
    destruct (Z.eqb_spec x c) as [->|Hne].
    + rewrite IH. split; [now intros -> | now intros [= ->]].
    + split; [discriminate | intros [= -> _]; contradiction].
Qed.

Lemma strip_prefix_app p r : strip_prefix p (p ++ r) = Some r.
Proof. now apply strip_prefix_spec. Qed.

Lemma strip_prefix_starts p s r :
  strip_prefix p s = Some r -> starts_with p s = true.
Proof.
  intros H. apply strip_prefix_spec in H as ->.
  apply starts_with_spec. now exists r.
Qed.

Lemma take_digits_spec n s :
  exists rest,
    s = take_digits n s ++ rest /\
    digits_text (take_digits n s) /\
    (length (take_digits n s) <= n)%nat /\
    (length (take_digits n s) = n \/ run_ends rest).
Proof.
  revert s. induction n as [|n IH]; intros s.
  - exists s. destruct s; simpl; (split; [reflexivity|]);
      (split; [constructor|]); (split; [lia|]); now left.
  - destruct s as [|c s]; simpl.
    + exists []. split; [reflexivity|]. split; [constructor|].
      split; [simpl; lia|]. right. exact I.
    + destruct (re_digit c) eqn:E.
      * destruct (IH s) as (rest & Hs & Hd & Hl & Hm). exists rest.
        split; [simpl; now rewrite <- Hs|].
        split; [now constructor|].
        split; [simpl; lia|].
        destruct Hm as [Hm|Hm]; [left; simpl; lia | now right].
      * exists (c :: s). split; [reflexivity|]. split; [constructor|].
        split; [simpl; lia|]. right. exact E.
Qed.

Lemma take_digits_run n g post :
  digits_text g -> (length g <= n)%nat ->
  (length g = n \/ run_ends post) ->
  take_digits n (g ++ post) = g.
Proof.
  intros Hd. revert n. induction Hd as [|c g Hc Hd IH]; intros n Hl Hm.
  - simpl in *. destruct n; [now destruct post|].
    destruct Hm as [Hm|Hm]; [discriminate|].
    destruct post as [|c post]; [reflexivity|]. simpl in *. now rewrite Hm.
  - destruct n as [|n]; [simpl in Hl; lia|].
    simpl. rewrite Hc. f_equal. apply IH; [simpl in Hl; lia|].
    destruct Hm as [Hm|Hm]; [left; simpl in Hm; lia | now right].
Qed.

Lemma take_digits_long n ds post :
  digits_text ds -> (n <= length ds)%nat ->
  take_digits n (ds ++ post) = firstn n ds.
Proof.
  intros Hd. revert n. induction Hd as [|c ds Hc Hd IH]; intros n Hl.
  - simpl in Hl. assert (n = 0%nat) as -> by lia. now destruct post.
  - destruct n as [|n]; [reflexivity|].
    simpl. rewrite Hc. f_equal. apply IH. simpl in Hl. lia.
Qed.

Lemma match_here_sound s g : match_here s = Some g -> match_at s [] g.
Proof.
  unfold match_here, match_at. intros H.
  destruct (strip_prefix marker s) as [rest|] eqn:E; [|discriminate].
  apply strip_prefix_spec in E as ->.
  destruct (take_digits_spec 5 rest) as (post & Hs & Hd & Hl & Hm).
  destruct (Nat.leb_spec 4 (length (take_digits 5 rest))) as [H4|];
    [|discriminate].
  assert (Hg : take_digits 5 rest = g) by congruence.
  rewrite <- Hg. clear H Hg. exists post.
  split; [now rewrite app_nil_l, <- Hs|].
  split; [assumption|]. split; [lia|]. destruct Hm; [left; lia | now right].
Qed.

Lemma match_here_complete s g : match_at s [] g -> match_here s = Some g.
Proof.
  intros (post & -> & Hd & [H4 H5] & Hm). unfold match_here.
  rewrite app_nil_l, strip_prefix_app. cbv zeta.
  rewrite take_digits_run by auto.
  destruct (Nat.leb_spec 4 (length g)); [reflexivity | lia].
Qed.

Lemma match_here_starts s g :
  match_here s = Some g -> starts_with marker s = true.
Proof.
  unfold match_here. intros H.
  destruct (strip_prefix marker s) eqn:E; [|discriminate].
  now apply strip_prefix_starts in E.
Qed.

Lemma re_search_nil :
  re_search [] = match match_here [] with Some g => Some g | None => None end.
Proof. reflexivity. Qed.

Lemma re_search_cons c s :
  re_search (c :: s) =
    match match_here (c :: s) with
    | Some g => Some g
    | None => re_search s
    end.
Proof. reflexivity. Qed.

Lemma re_search_here s g : match_here s = Some g -> re_search s = Some g.
Proof.
  intros H. destruct s; [rewrite re_search_nil | rewrite re_search_cons];
    now rewrite H.
Qed.

(** The search passes over every position that has no match. *)
Lemma re_search_skip pre s :
  (forall pre1 c pre2, pre = pre1 ++ c :: pre2 ->
     match_here (c :: pre2 ++ s) = None) ->
  re_search (pre ++ s) = re_search s.
Proof.
  induction pre as [|c pre IH]; intros H; [reflexivity|].
  change ((c :: pre) ++ s) with (c :: pre ++ s).
  rewrite re_search_cons, (H [] c pre eq_refl).
  apply IH. intros pre1 c' pre2 ->. now apply (H (c :: pre1) c' pre2).
Qed.

Lemma match_at_shift pre s g :
  match_at s [] g -> match_at (pre ++ s) pre g.
Proof. intros (post & -> & H). exists post. split; [reflexivity | exact H]. Qed.

Lemma re_search_sound s g :
  re_search s = Some g -> exists pre, match_at s pre g.
Proof.
  induction s as [|c s IH].
  - rewrite re_search_nil. destruct (match_here []) eqn:E; [|discriminate].
    intros [= <-]. exists []. now apply match_here_sound.
  - rewrite re_search_cons. destruct (match_here (c :: s)) eqn:E.
    + intros [= <-]. exists []. now apply match_here_sound.
    + intros H. destruct (IH H) as [pre (post & -> & Hr)].
      exists (c :: pre), post. split; [reflexivity | exact Hr].
Qed.

(** The leftmost match is the one found. *)
Lemma re_search_leftmost text pre g :
  match_at text pre g ->
  (forall pre' g', match_at text pre' g' -> (length pre <= length pre')%nat) ->
  re_search text = Some g.
Proof.
  intros Hm Hleft.
  assert (Htext : exists s, text = pre ++ s /\ match_at s [] g).
  { destruct Hm as (post & -> & Hr). exists (marker ++ g ++ post).
    split; [reflexivity|]. now exists post. }
  destruct Htext as (s & -> & Hs).
  rewrite re_search_skip; [now apply re_search_here, match_here_complete|].
  intros pre1 c pre2 ->.
  destruct (match_here (c :: pre2 ++ s)) as [g'|] eqn:E; [|reflexivity].
  exfalso. apply match_here_sound, (match_at_shift pre1) in E.
  rewrite <- app_assoc in Hleft. apply Hleft in E.
  rewrite length_app in E. simpl in E. lia.
Qed.

Lemma match_at_contains text pre g :
  match_at text pre g -> contains marker text = true.
Proof.
  intros (post & -> & _). apply contains_spec. now exists pre, (g ++ post).
Qed.

Lemma re_search_none s : contains marker s = false -> re_search s = None.
Proof.
  intros H. destruct (re_search s) as [g|] eqn:E; [|reflexivity].
  apply re_search_sound in E as [pre Hm].
  apply match_at_contains in Hm. congruence.
Qed.

(** ** The loop body *)

Lemma isdigit_char b : isdigit (decode [b]) = is_digit_byte b.
Proof.
  rewrite decode_single. unfold is_digit_byte, is_ascii_digit.
  destruct (Z.ltb_spec (byte_val b) 0x80) as [Hb|Hb]; simpl.
  - unfold char_isdigit, is_ascii, is_ascii_digit.
    destruct (Z.ltb_spec (byte_val b) 0x80); [|lia].
    now destruct (0x30 <=? byte_val b), (byte_val b <=? 0x39).
  - destruct (Z.leb_spec (byte_val b) 0x39); [lia|].
    now destruct (0x30 <=? byte_val b).
Qed.

Lemma digit_char b : is_digit_byte b = true -> decode [b] = [byte_val b].
Proof.
  unfold is_digit_byte, is_ascii_digit. intros H. rewrite decode_single.
  apply andb_prop in H as [_ H]. apply Z.leb_le in H.
  destruct (Z.ltb_spec (byte_val b) 0x80); [reflexivity | lia].
Qed.

Lemma on_byte_search st b :
  found_bore_pub st = false ->
  exists l,
    on_byte st b =
      inl ({| output := output st ++ [b];
              found_bore_pub := detected (output st ++ [b]);
              port_digits := port_digits st |}, l).
Proof.
  intros H. unfold on_byte, detected. rewrite H.
  change (negb false) with true. cbv beta zeta match.
  destruct (contains marker (decode (output st ++ [b]))); eexists; reflexivity.
Qed.

Lemma on_byte_digit st b :
  found_bore_pub st = true -> is_digit_byte b = true ->
  on_byte st b =
    inl ({| output := output st ++ [b]; found_bore_pub := true;
            port_digits := port_digits st ++ [byte_val b] |}, []).
Proof.
  intros H Hb. unfold on_byte. rewrite H.
  change (negb true) with false. cbv beta zeta match.
  now rewrite isdigit_char, Hb, (digit_char _ Hb).
Qed.

Lemma on_byte_short st b :
  found_bore_pub st = true -> is_digit_byte b = false ->
  (length (port_digits st) < 4)%nat ->
  on_byte st b =
    inl ({| output := output st ++ [b]; found_bore_pub := true;
            port_digits := port_digits st |}, []).
Proof.
  intros H Hb Hl. unfold on_byte. rewrite H.
  change (negb true) with false. cbv beta zeta match.
  rewrite isdigit_char, Hb. cbv beta match.
  destruct (Nat.leb_spec 4 (length (port_digits st))); [lia|].
  now destruct (negb (length (port_digits st) =? 0)%nat && negb false).
Qed.

Lemma on_byte_return st b :
  found_bore_pub st = true -> is_digit_byte b = false ->
  (4 <= length (port_digits st))%nat ->
  on_byte st b =
    inr (fast_url (port_digits st),
         [Print (lit "Captured complete port: " ++ port_digits st)]).
Proof.
  intros H Hb Hl. unfold on_byte. rewrite H.
  change (negb true) with false. cbv beta zeta match.
  rewrite isdigit_char, Hb. cbv beta match.
  destruct (Nat.eqb_spec (length (port_digits st)) 0); [lia|].
  change (negb false && negb false) with true. cbv beta match.
  destruct (Nat.leb_spec 4 (length (port_digits st))); [reflexivity | lia].
Qed.

(** The three ways the body can end, for use in case analyses. *)
Lemma on_byte_cases st b :
  (exists st' l, on_byte st b = inl (st', l) /\
     output st' = output st ++ [b] /\
     (found_bore_pub st = true -> found_bore_pub st' = true) /\
     (port_digits st' = port_digits st \/
      found_bore_pub st = true /\ is_digit_byte b = true /\
      port_digits st' = port_digits st ++ [byte_val b])) \/
  (exists l, on_byte st b = inr (fast_url (port_digits st), l) /\
     found_bore_pub st = true /\ is_digit_byte b = false /\
     (4 <= length (port_digits st))%nat).
Proof.
  destruct (found_bore_pub st) eqn:Hf.
  - destruct (is_digit_byte b) eqn:Hb.
    + left. rewrite on_byte_digit by assumption. do 2 eexists.
      split; [reflexivity|]. simpl. repeat split. right. repeat split.
    + destruct (Nat.leb_spec 4 (length (port_digits st))).
      * right. rewrite on_byte_return by assumption. eexists. auto.
      * left. rewrite on_byte_short by assumption. do 2 eexists.
        split; [reflexivity|]. simpl. repeat split. now left.
  - left. destruct (on_byte_search st b Hf) as [l ->]. do 2 eexists.
    split; [reflexivity|]. simpl. split; [reflexivity|]. split; [discriminate|].
    now left.
Qed.

Lemma feed_cons st b bs :
  feed st (b :: bs) =
    match on_byte st b with
    | inl (st', _) => feed st' bs
    | inr (url, _) => inr url
    end.
Proof. reflexivity. Qed.

Lemma feed_app st bs1 bs2 :
  feed st (bs1 ++ bs2) =
    match feed st bs1 with
    | inl st' => feed st' bs2
    | inr url => inr url
    end.
Proof.
  revert st. induction bs1 as [|b bs1 IH]; intros st; [reflexivity|].
  simpl app. rewrite !feed_cons.
  destruct (on_byte st b) as [[st' l] | [url l]]; [apply IH | reflexivity].
Qed.

(** While the buffer decodes to text without the marker, the loop only
    gathers bytes. *)
Lemma feed_search st bs :
  found_bore_pub st = false ->
  detected (output st ++ bs) = false ->
  feed st bs =
    inl {| output := output st ++ bs; found_bore_pub := false;
           port_digits := port_digits st |}.
Proof.
  revert st. induction bs as [|b bs IH]; intros st Hf Hd.
  - rewrite app_nil_r. destruct st; simpl in *. now subst.
  - rewrite feed_cons. destruct (on_byte_search st b Hf) as [l ->].
    assert (E : detected (output st ++ [b]) = false).
    { apply (undetected_prefix _ bs). now rewrite <- app_assoc. }
    rewrite E, IH; simpl; auto.
    + now rewrite <- app_assoc.
    + now rewrite <- app_assoc.
Qed.

(** The byte that completes the first occurrence switches the state. *)
Lemma feed_detect st b :
  found_bore_pub st = false ->
  detected (output st ++ [b]) = true ->
  feed st [b] =
    inl {| output := output st ++ [b]; found_bore_pub := true;
           port_digits := port_digits st |}.
Proof.
  intros Hf Hd. rewrite feed_cons.
  destruct (on_byte_search st b Hf) as [l ->]. now rewrite Hd.
Qed.

Lemma feed_digits st ds :
  found_bore_pub st = true -> digit_bytes ds ->
  feed st ds =
    inl {| output := output st ++ ds; found_bore_pub := true;
           port_digits := port_digits st ++ map byte_val ds |}.
Proof.
  intros Hf Hd. revert st Hf.
  induction Hd as [|b ds Hb Hd IH]; intros st Hf.
  - simpl. rewrite !app_nil_r. destruct st; simpl in *. now subst.
  - rewrite feed_cons, on_byte_digit, IH by auto. simpl.
    now rewrite <- !app_assoc.
Qed.

Lemma feed_noise st mid :
  found_bore_pub st = true -> no_digit_bytes mid ->
  (length (port_digits st) < 4)%nat ->
  feed st mid =
    inl {| output := output st ++ mid; found_bore_pub := true;
           port_digits := port_digits st |}.
Proof.
  intros Hf Hd Hl. revert st Hf Hl.
  induction Hd as [|b mid Hb Hd IH]; intros st Hf Hl.
  - simpl. rewrite !app_nil_r. destruct st; simpl in *. now subst.
  - rewrite feed_cons, on_byte_short, IH by auto. simpl.
    now rewrite <- !app_assoc.
Qed.

Lemma feed_return st b bs :
  found_bore_pub st = true -> is_digit_byte b = false ->
  (4 <= length (port_digits st))%nat ->
  feed st (b :: bs) = inr (fast_url (port_digits st)).
Proof. intros. now rewrite feed_cons, on_byte_return. Qed.

Lemma feed_output st bs st' :
  feed st bs = inl st' -> output st' = output st ++ bs.
Proof.
  revert st. induction bs as [|b bs IH]; intros st.
  - intros [= <-]. now rewrite app_nil_r.
  - rewrite feed_cons.
    destruct (on_byte_cases st b) as [(s1 & l & -> & Ho & _) | (l & -> & _)];
      [|discriminate].
    intros H. apply IH in H. rewrite H, Ho. now rewrite <- app_assoc.
Qed.

(** In the capturing state the digits of the bytes read pile up, whatever
    lies between them. *)
Lemma feed_appends st bs st' :
  found_bore_pub st = true ->
  feed st bs = inl st' ->
  found_bore_pub st' = true /\
  port_digits st' = port_digits st ++ map byte_val (filter is_digit_byte bs).
Proof.
  revert st. induction bs as [|b bs IH]; intros st Hf.
  - intros [= <-]. simpl. now rewrite app_nil_r.
  - rewrite feed_cons. destruct (is_digit_byte b) eqn:Hb.
    + rewrite on_byte_digit by assumption. intros H.
      apply IH in H as [H1 H2]; [|reflexivity]. split; [assumption|].
      simpl. rewrite Hb. simpl in *. now rewrite H2, <- app_assoc.
    + destruct (Nat.leb_spec 4 (length (port_digits st))) as [Hge|Hlt].
      * rewrite on_byte_return by assumption. discriminate.
      * rewrite on_byte_short by assumption. intros H.
        apply IH in H as [H1 H2]; [|reflexivity]. split; [assumption|].
        simpl. now rewrite Hb.
Qed.

(** The digits gathered are ASCII digits, and a URL is only built from
    four of them or more. *)
Lemma feed_digits_inv st bs :
  ascii_digits (port_digits st) ->
  match feed st bs with
  | inl st' => ascii_digits (port_digits st')
  | inr url =>
    exists p, url = fast_url p /\ ascii_digits p /\ (4 <= length p)%nat
  end.
Proof.
  revert st. induction bs as [|b bs IH]; intros st Hp; [exact Hp|].
  rewrite feed_cons.
  destruct (on_byte_cases st b)
    as [(s1 & l & -> & _ & _ & Hd) | (l & -> & _ & _ & Hl)].
  - apply IH. destruct Hd as [-> | (_ & Hb & ->)]; [assumption|].
    apply Forall_app. split; [assumption|]. now repeat constructor.
  - now exists (port_digits st).
Qed.

(** ** Outcomes and logs *)

Lemma after_nil {A} (o : outcome A) : after [] o = o.
Proof. now destruct o. Qed.

Lemma after_after {A} l1 l2 (o : outcome A) :
  after l1 (after l2 o) = after (l1 ++ l2) o.
Proof. destruct o; simpl; now rewrite app_assoc. Qed.

Lemma log_of_after {A} l (o : outcome A) : log_of (after l o) = l ++ log_of o.
Proof. now destruct o. Qed.

Lemma result_of_after {A} l (o : outcome A) : result_of (after l o) = result_of o.
Proof. now destruct o. Qed.

Lemma after_Done {A} l (o : outcome A) a l' :
  after l o = Done a l' -> exists l0, o = Done a l0 /\ l' = l ++ l0.
Proof. destruct o; simpl; try discriminate. intros [= -> <-]. now eexists. Qed.

Lemma bind_Done {A B} (o : outcome A) (k : A -> outcome B) b l :
  bind o k = Done b l ->
  exists a l1 l2, o = Done a l1 /\ k a = Done b l2 /\ l = l1 ++ l2.
Proof.
  destruct o as [a l1| |]; simpl; try discriminate.
  intros H. apply after_Done in H as (l2 & H & ->). now exists a, l1, l2.
Qed.

Lemma no_Terminate_app l1 l2 :
  no_Terminate (l1 ++ l2) <-> no_Terminate l1 /\ no_Terminate l2.
Proof. apply Forall_app. Qed.

Lemma no_Terminate_after {A} l (o : outcome A) :
  no_Terminate l -> no_Terminate (log_of o) -> no_Terminate (log_of (after l o)).
Proof. intros. rewrite log_of_after. now apply no_Terminate_app. Qed.

Lemma no_Terminate_bind {A B} (o : outcome A) (k : A -> outcome B) :
  no_Terminate (log_of o) ->
  (forall a, no_Terminate (log_of (k a))) ->
  no_Terminate (log_of (bind o k)).
Proof.
  destruct o as [a l| |]; simpl; auto.
  intros. now apply no_Terminate_after.
Qed.

(** ** The scan loop *)

Lemma scan_loop_cons start now r its st :
  scan_loop start ((now, r) :: its) st =
    if in_budget start now then
      match r with
      | RByte b =>
        match on_byte st b with
        | inl (st', l) => after l (scan_loop start its st')
        | inr (url, l) => Done (FastReturn url) l
        end
      | REmpty => scan_loop start its st
      | RRaise _ => after [Sleep (1 # 100)] (scan_loop start its st)
      end
    else Done (TimedOut st) [].
Proof. reflexivity. Qed.

(** The loop is the loop body folded over the bytes read within the
    budget: it returns at the first [return] of the body, leaves at the
    first loop test past the budget, and is still running otherwise. *)
Lemma scan_loop_feed start its st :
  match feed st (budget_reads start its) with
  | inr url => exists l, scan_loop start its st = Done (FastReturn url) l
  | inl st' =>
    if expires start its
    then exists l, scan_loop start its st = Done (TimedOut st') l
    else exists l, scan_loop start its st = Pending l
  end.
Proof.
  revert st. induction its as [|[now r] its IH]; intros st.
  - simpl. now eexists.
  - rewrite scan_loop_cons. simpl budget_reads. simpl expires.
    destruct (in_budget start now); [|simpl; now eexists].
    destruct r as [b| |e].
    + rewrite feed_cons.
      destruct (on_byte st b) as [[st' l] | [url l]]; [|now eexists].
      specialize (IH st').
      destruct (feed st' (budget_reads start its)) as [st''|url].
      * destruct (expires start its); destruct IH as [l' ->]; simpl; now eexists.
      * destruct IH as [l' ->]; simpl; now eexists.
    + apply IH.
    + specialize (IH st).
      destruct (feed st (budget_reads start its)) as [st''|url].
      * destruct (expires start its); destruct IH as [l' ->]; simpl; now eexists.
      * destruct IH as [l' ->]; simpl; now eexists.
Qed.

Lemma scan_loop_returns start its st url l :
  scan_loop start its st = Done (FastReturn url) l ->
  feed st (budget_reads start its) = inr url.
Proof.
  intros H. pose proof (scan_loop_feed start its st) as F.
  destruct (feed st (budget_reads start its)) as [st'|url'].
  - destruct (expires start its); destruct F as [l' F]; congruence.
  - destruct F as [l' F]. congruence.
Qed.

Lemma scan_loop_times_out start its st st' l :
  scan_loop start its st = Done (TimedOut st') l ->
  feed st (budget_reads start its) = inl st' /\ expires start its = true.
Proof.
  intros H. pose proof (scan_loop_feed start its st) as F.
  destruct (feed st (budget_reads start its)) as [st''|url'].
  - destruct (expires start its); destruct F as [l' F]; [|congruence].
    split; [congruence | reflexivity].
  - destruct F as [l' F]. congruence.
Qed.

Lemma on_byte_log st b :
  no_Terminate
    match on_byte st b with
    | inl (_, l) => l
    | inr (_, l) => l
    end.
Proof.
  unfold on_byte.
  repeat match goal with
  | |- context [if ?c then _ else _] => destruct c
  end; repeat constructor.
Qed.

Lemma scan_loop_log start its st :
  no_Terminate (log_of (scan_loop start its st)).
Proof.
  revert st. induction its as [|[now r] its IH]; intros st; [constructor|].
  rewrite scan_loop_cons.
  destruct (in_budget start now); [|constructor].
  destruct r as [b| |e'].
  - pose proof (on_byte_log st b) as L.
    destruct (on_byte st b) as [[st' l'] | [url l']]; [|exact L].
    now apply no_Terminate_after.
  - apply IH.
  - apply no_Terminate_after; [repeat constructor | apply IH].
Qed.

(** Nothing recorded behind the first loop test past the budget matters. *)
Lemma scan_loop_cut start its1 now r its2 st :
  in_budget start now = false ->
  scan_loop start (its1 ++ (now, r) :: its2) st =
  scan_loop start (its1 ++ [(now, r)]) st.
Proof.
  intros Hn. revert st. induction its1 as [|[now1 r1] its1 IH]; intros st.
  - simpl app. rewrite !scan_loop_cons. now rewrite Hn.
  - simpl app. rewrite !scan_loop_cons.
    destruct (in_budget start now1); [|reflexivity].
    destruct r1 as [b| |e]; [|apply IH|now rewrite IH].
    destruct (on_byte st b) as [[st' l'] | [url l']]; [|reflexivity].
    now rewrite IH.
Qed.

(** ** [capture_bore_url] *)

Lemma capture_spawned env process :
  popen env = inl process ->
  capture_bore_url env =
    after [Print (lit "Starting bore.exe...");
           Spawn process BORE_ARGV
             (env_set "TERM" "dumb" (env_set "NO_COLOR" "1" (os_environ env)));
           Print (lit "Reading bore output...")]
      (perform ex <- scan_loop (start_clock env) (iterations env) scan_init ;;
       match ex with
       | FastReturn url => Done (Some url, process) []
       | TimedOut st =>
         perform url <- fallback st ;;
         Done (url, process) []
       end).
Proof.
  intros H. unfold capture_bore_url. rewrite H. unfold say.
  cbv beta zeta. unfold bind at 1 2 3. rewrite !after_after. reflexivity.
Qed.

Lemma fallback_eq st :
  fallback st =
    Done (option_map fallback_url (re_search (decode (output st))))
         [Print (lit "Timeout reached. Searching full output...")].
Proof.
  unfold fallback. cbv zeta.
  destruct (re_search (decode (output st))); reflexivity.
Qed.

Lemma capture_fast env process url :
  popen env = inl process ->
  feed scan_init (stream env) = inr url ->
  exists log, capture_bore_url env = Done (Some url, process) log.
Proof.
  intros Hp Hf. rewrite (capture_spawned _ _ Hp).
  pose proof (scan_loop_feed (start_clock env) (iterations env) scan_init) as F.
  unfold stream in Hf. rewrite Hf in F. destruct F as [l ->].
  simpl. now eexists.
Qed.

Lemma capture_timeout env process st :
  popen env = inl process ->
  feed scan_init (stream env) = inl st ->
  timed_out env = true ->
  exists log,
    capture_bore_url env =
      Done (option_map fallback_url (re_search (decode (output st))), process)
           log.
Proof.
  intros Hp Hf Ht. rewrite (capture_spawned _ _ Hp).
  pose proof (scan_loop_feed (start_clock env) (iterations env) scan_init) as F.
  unfold stream in Hf. unfold timed_out in Ht. rewrite Hf, Ht in F.
  destruct F as [l ->]. unfold bind at 1. cbv beta match.
  rewrite fallback_eq. simpl. now eexists.
Qed.

Lemma capture_pending env process st :
  popen env = inl process ->
  feed scan_init (stream env) = inl st ->
  timed_out env = false ->
  exists log, capture_bore_url env = Pending log.
Proof.
  intros Hp Hf Ht. rewrite (capture_spawned _ _ Hp).
  pose proof (scan_loop_feed (start_clock env) (iterations env) scan_init) as F.
  unfold stream in Hf. unfold timed_out in Ht. rewrite Hf, Ht in F.
  destruct F as [l ->]. simpl. now eexists.
Qed.

(** Every way [capture_bore_url] returns. *)
Lemma capture_Done env url process log :
  capture_bore_url env = Done (url, process) log ->
  popen env = inl process /\
  (feed scan_init (stream env) = inr (text_of url) /\ url = Some (text_of url) \/
   exists st,
     feed scan_init (stream env) = inl st /\ timed_out env = true /\
     url = option_map fallback_url (re_search (decode (output st)))).
Proof.
  intros H. destruct (popen env) as [p|e] eqn:Hp.
  - rewrite (capture_spawned _ _ Hp) in H.
    apply after_Done in H as (l0 & H & _).
    apply bind_Done in H as (ex & l1 & l2 & Hloop & Hk & _).
    destruct ex as [u|st].
    + injection Hk as <- <- _. split; [reflexivity|]. left.
      apply scan_loop_returns in Hloop. now split.
    + rewrite fallback_eq in Hk. simpl in Hk. injection Hk as <- <- _.
      split; [reflexivity|]. right. exists st.
      apply scan_loop_times_out in Hloop as [H1 H2]. now repeat split.
  - unfold capture_bore_url in H. rewrite Hp in H. discriminate.
Qed.

Lemma capture_log env : no_Terminate (log_of (capture_bore_url env)).
Proof.
  destruct (popen env) as [p|e] eqn:Hp.
  - rewrite (capture_spawned _ _ Hp).
    apply no_Terminate_after; [repeat constructor|].
    apply no_Terminate_bind; [apply scan_loop_log|].
    intros [u|st]; [constructor|].
    rewrite fallback_eq. simpl. repeat constructor.
  - unfold capture_bore_url. rewrite Hp. simpl. repeat constructor.
Qed.

(** ** The loop with the failures of its calls *)

Lemma scan_loop_io_cons start it its st :
  scan_loop_io start (it :: its) st =
    match loop_test it with
    | inr e => Raised e []
    | inl now =>
      if in_budget start now then
        match read_r it with
        | RByte b =>
          match on_byte_io (fault it) st b with
          | GoesOn st' l => after l (scan_loop_io start its st')
          | Returns url l => Done (FastReturn url) l
          | Caught _ st' l =>
            after l (on_except (sleep_r it) (scan_loop_io start its st'))
          end
        | REmpty => scan_loop_io start its st
        | RRaise _ => on_except (sleep_r it) (scan_loop_io start its st)
        end
      else Done (TimedOut st) []
    end.
Proof. reflexivity. Qed.

(** Without an exception in the body, the body is [on_byte]. *)
Lemma on_byte_io_plain st b :
  on_byte_io None st b =
    match on_byte st b with
    | inl (st', l) => GoesOn st' l
    | inr (url, l) => Returns url l
    end.
Proof.
  destruct st as [o f p]. unfold on_byte_io, on_byte, at_line.
  cbn [output found_bore_pub port_digits].
  destruct f.
  - change (negb true) with false. cbv beta zeta match.
    repeat match goal with
    | |- context [if ?c then _ else _] => destruct c
    end; reflexivity.
  - change (negb false) with true. cbv beta zeta match.
    repeat match goal with
    | |- context [if ?c then _ else _] => destruct c
    end; reflexivity.
Qed.

(** Without exceptions at the loop test, in the body and in the sleep,
    the loop is [scan_loop]. *)
Lemma scan_loop_io_plain start its st :
  scan_loop_io start (map plain_step its) st = scan_loop start its st.
Proof.
  revert st. induction its as [|[now r] its IH]; intros st; [reflexivity|].
  simpl map. rewrite scan_loop_io_cons, scan_loop_cons.
  unfold plain_step at 1 2 3 4. cbn [loop_test read_r fault sleep_r fst snd].
  destruct (in_budget start now); [|reflexivity].
  destruct r as [b| |e].
  - rewrite on_byte_io_plain.
    destruct (on_byte st b) as [[st' l] | [url l]]; [|reflexivity].
    now rewrite IH.
  - apply IH.
  - unfold on_except. now rewrite IH.
Qed.

Lemma capture_io_plain env :
  capture_bore_url_io (plain_capture env) = capture_bore_url env.
Proof.
  unfold capture_bore_url_io, capture_bore_url, plain_capture.
  cbn [io_environ io_popen io_start io_steps].
  now rewrite scan_loop_io_plain.
Qed.









(** ** [capture_bore_url] with the failures of its calls *)

Lemma capture_io_spawned env process :
  io_popen env = inl process ->
  capture_bore_url_io env =
    after [Print (lit "Starting bore.exe...");
           Spawn process BORE_ARGV
             (env_set "TERM" "dumb" (env_set "NO_COLOR" "1" (io_environ env)));
           Print (lit "Reading bore output...")]
      (perform ex <- scan_loop_io (io_start env) (io_steps env) scan_init ;;
       match ex with
       | FastReturn url => Done (Some url, process) []
       | TimedOut st =>
         perform url <- fallback st ;;
         Done (url, process) []
       end).
Proof.
  intros H. unfold capture_bore_url_io. rewrite H. unfold say.
  cbv beta zeta. unfold bind at 1 2 3. rewrite !after_after. reflexivity.
Qed.


Lemma scan_loop_io_url start its st url l :
  scan_loop_io start its st = Done (FastReturn url) l ->
  exists p, url = fast_url p.
Proof.
  revert st l. induction its as [|it its IH]; intros st l; [discriminate|].
  rewrite scan_loop_io_cons.
  destruct (loop_test it) as [now|e0]; [|discriminate].
  destruct (in_budget start now); [|discriminate].
  assert (Hafter : forall pre st' l',
             after pre (scan_loop_io start its st') = Done (FastReturn url) l' ->
             exists p, url = fast_url p).
  { intros pre st' l' H. apply after_Done in H as (l0 & H & _).
    eapply IH. exact H. }
  assert (Hexc : forall pre st' l',
             after pre (on_except (sleep_r it) (scan_loop_io start its st'))
               = Done (FastReturn url) l' ->
             exists p, url = fast_url p).
  { intros pre st' l' H. unfold on_except in H.
    destruct (sleep_r it); [destruct pre; discriminate|].
    rewrite after_after in H. eapply Hafter. exact H. }
  destruct (read_r it) as [b| |e1].
  - destruct (on_byte_io (fault it) st b) as [st' l1|u l1|e1 st' l1] eqn:E.
    + apply Hafter.
    + intros [= -> _]. clear -E. exists (port_digits st).
      destruct st as [o f p]. unfold on_byte_io in E.
      cbn [output found_bore_pub port_digits] in E.
      repeat match type of E with
      | context [match ?c with _ => _ end] => destruct c; try discriminate
      end.
      now injection E as <- _.
    + apply Hexc.
  - apply IH.
  - intros H. apply (Hexc [] st l). now rewrite after_nil.
Qed.

Lemma capture_io_truthy env url process log :
  capture_bore_url_io env = Done (Some url, process) log ->
  truthy (Some url) = true.
Proof.
  destruct (io_popen env) as [p|e0] eqn:Hp.
  - rewrite (capture_io_spawned _ _ Hp). intros H.
    apply after_Done in H as (l0 & H & _).
    apply bind_Done in H as (ex & l1 & l2 & Hloop & Hk & _).
    destruct ex as [u|st].
    + injection Hk as <- _ _.
      apply scan_loop_io_url in Hloop as [q ->]. reflexivity.
    + rewrite fallback_eq in Hk. simpl in Hk. injection Hk as Hu _ _.
      destruct (re_search (decode (output st))); [|discriminate].
      injection Hu as <-. reflexivity.
  - unfold capture_bore_url_io. rewrite Hp. discriminate.
Qed.

(** ** The console *)

Lemma say_io_printable console s :
  printable console s = true -> say_io console s = Done tt [Print s].
Proof. unfold say_io. now intros ->. Qed.

Lemma say_io_unprintable console s :
  printable console s = false ->
  say_io console s = Raised (UnicodeEncodeError console s) [].
Proof. unfold say_io. now intros ->. Qed.

Lemma printable_ascii console s :
  forallb is_ascii s = true -> printable console s = true.
Proof.
  unfold printable, encodable. induction s as [|c s IH]; [reflexivity|].
  simpl. intros H. apply andb_prop in H as [-> H]. now apply IH.
Qed.

(** A console that takes every character. *)
Lemma printable_all console s :
  (forall c, has_char console c = true) -> printable console s = true.
Proof.
  intros H. unfold printable, encodable. apply forallb_forall.
  intros c _. rewrite H. apply orb_true_r.
Qed.

Lemma say_io_all console s :
  (forall c, has_char console c = true) -> say_io console s = say s.
Proof. intros H. now rewrite say_io_printable by now apply printable_all. Qed.

(** ** [send_email] on a console *)

Lemma bind_after {A B} l (o : outcome A) (k : A -> outcome B) :
  bind (after l o) k = after l (bind o k).
Proof. destruct o; simpl; try reflexivity. now rewrite after_after. Qed.

Lemma bind_assoc {A B C} (o : outcome A) (f : A -> outcome B)
    (g : B -> outcome C) :
  bind (bind o f) g = bind o (fun x => bind (f x) g).
Proof. destruct o; simpl; try reflexivity. apply bind_after. Qed.

(** The mail session ends with every step done, or with the exception
    that leaves it. *)
Lemma mail_session url env :
  (perform _ <- call (SmtpConnect SMTP_SERVER SMTP_PORT) (connect_r env) ;;
   with_exit
     (perform _ <- call SmtpStartTls (starttls_r env) ;;
      perform _ <- call (SmtpLogin SENDER_EMAIL SENDER_PASSWORD) (login_r env) ;;
      call (SmtpSend (message url)) (send_r env))
     (call SmtpQuit (quit_r env)))
  = match mail_exception env with
    | None => Done tt (mail_steps url env)
    | Some e => Raised e (mail_steps url env)
    end.
Proof.
  destruct env as [[c|] [s|] [g|] [m|] [q|]]; reflexivity.
Qed.

Lemma send_email_io_eq console url env :
  send_email_io console url env =
    try_except
      (perform _ <- match mail_exception env with
                    | None => Done tt (mail_steps url env)
                    | Some e => Raised e (mail_steps url env)
                    end ;;
       perform _ <- say_io console email_sent ;;
       Done true [])
      is_Exception
      (fun e =>
         perform _ <- say_io console (email_failed e) ;;
         Done false []).
Proof.
  unfold send_email_io. now rewrite <- (mail_session url env), bind_assoc.
Qed.

(** Every step succeeds and the console takes the line of line 103. *)
Lemma send_email_io_sent console url env :
  mail_exception env = None ->
  printable console email_sent = true ->
  send_email_io console url env =
    Done true (mail_steps url env ++ [Print email_sent]).
Proof.
  intros Hm Hp. rewrite send_email_io_eq, Hm, say_io_printable by assumption.
  simpl. now rewrite ?app_nil_r.
Qed.

(** A step fails with an [Exception] and the console takes the line of
    line 106. *)
Lemma send_email_io_failed console url env e :
  mail_exception env = Some e ->
  is_Exception e = true ->
  printable console (email_failed e) = true ->
  send_email_io console url env =
    Done false (mail_steps url env ++ [Print (email_failed e)]).
Proof.
  intros Hm He Hp. rewrite send_email_io_eq, Hm. simpl. rewrite He.
  rewrite say_io_printable by assumption. simpl. now rewrite ?app_nil_r.
Qed.

(** The handler's own print fails: its exception leaves [send_email]. *)
Lemma send_email_io_handler_fails console url env e :
  mail_exception env = Some e ->
  is_Exception e = true ->
  printable console (email_failed e) = false ->
  send_email_io console url env =
    Raised (UnicodeEncodeError console (email_failed e)) (mail_steps url env).
Proof.
  intros Hm He Hp. rewrite send_email_io_eq, Hm. simpl. rewrite He.
  rewrite say_io_unprintable by assumption. simpl. now rewrite ?app_nil_r.
Qed.

(** The mail is sent and the print of line 103 fails: the failure is
    caught as a failure of the mail. *)
Lemma send_email_io_sent_unprintable console url env :
  mail_exception env = None ->
  printable console email_sent = false ->
  send_email_io console url env =
    after (mail_steps url env)
      (perform _ <- say_io console
                      (email_failed (UnicodeEncodeError console email_sent)) ;;
       Done false []).
Proof.
  intros Hm Hp. rewrite send_email_io_eq, Hm.
  rewrite say_io_unprintable by assumption.
  unfold bind at 1 2. cbn [after try_except]. unfold is_Exception at 1.
  unfold UnicodeEncodeError at 1. now rewrite app_nil_r.
Qed.

(** Every exception that leaves [send_email]: one of a mail step that
    [except Exception] does not catch, or the one of the handler's
    print. *)
Lemma send_email_io_Raised console url env e l :
  send_email_io console url env = Raised e l ->
  l = mail_steps url env /\
  (mail_exception env = Some e /\ is_Exception e = false \/
   exists e0,
     e = UnicodeEncodeError console (email_failed e0) /\
     printable console (email_failed e0) = false /\
     (mail_exception env = Some e0 /\ is_Exception e0 = true \/
      mail_exception env = None /\
      e0 = UnicodeEncodeError console email_sent /\
      printable console email_sent = false)).
Proof.
  rewrite send_email_io_eq.
  destruct (mail_exception env) as [e0|] eqn:Hm.
  - simpl. destruct (is_Exception e0) eqn:He.
    + unfold say_io.
      destruct (printable console (email_failed e0)) eqn:Hp; simpl;
        [discriminate|].
      intros [= <- <-]. split; [now rewrite ?app_nil_r|]. right.
      exists e0. split; [reflexivity|]. split; [assumption|]. now left.
    + intros [= <- <-]. split; [reflexivity|]. now left.
  - unfold say_io at 1.
    destruct (printable console email_sent) eqn:Hs; simpl; [discriminate|].
    unfold say_io.
    destruct (printable console
                (email_failed (UnicodeEncodeError console email_sent))) eqn:Hp;
      simpl; [discriminate|].
    intros [= <- <-]. split; [now rewrite ?app_nil_r|]. right.
    exists (UnicodeEncodeError console email_sent).
    split; [reflexivity|]. split; [assumption|]. right. now repeat split.
Qed.

Lemma mail_exception_ok env : mail_exception env = None <-> smtp_ok env = true.
Proof.
  destruct env as [[c|] [s|] [g|] [m|] [q|]]; simpl;
    split; (discriminate || reflexivity).
Qed.

(** On a console that has every character, [send_email_io] is
    [send_email]. *)
Lemma send_email_io_plain console url env :
  (forall c, has_char console c = true) ->
  send_email_io console url env = send_email url env.
Proof.
  intros H. unfold send_email_io, send_email, send_email_body. cbv zeta.
  fold (message url).
  destruct env as [[c|] [s|] [g|] [m|] [q|]];
    cbn [connect_r starttls_r login_r send_r quit_r call bind with_exit
         try_except after app];
    repeat match goal with
    | |- context [is_Exception ?e] => destruct (is_Exception e)
    end;
    cbn [bind after app]; rewrite ?say_io_all by assumption; reflexivity.
Qed.

(** ** The fast path *)

(** The colon of the first occurrence of the marker puts the loop into the
    capturing state, with nothing captured yet. *)
Lemma feed_first_marker pre :
  detected pre = false ->
  feed scan_init (pre ++ marker_bytes) =
    inl {| output := pre ++ marker_bytes; found_bore_pub := true;
           port_digits := [] |}.
Proof.
  intros Hd. rewrite marker_bytes_split, app_assoc, feed_app.
  rewrite feed_search; [|reflexivity|simpl; now apply undetected_stem].
  rewrite feed_detect; simpl; auto.
  rewrite <- app_assoc, <- marker_bytes_split, <- (app_nil_r marker_bytes).
  apply detected_marker.
Qed.

Lemma feed_port pre ds :
  detected pre = false -> digit_bytes ds ->
  feed scan_init (pre ++ marker_bytes ++ ds) =
    inl {| output := pre ++ marker_bytes ++ ds; found_bore_pub := true;
           port_digits := map byte_val ds |}.
Proof.
  intros Hd Hds. rewrite app_assoc, feed_app, feed_first_marker by assumption.
  rewrite feed_digits by auto. simpl. now rewrite <- app_assoc.
Qed.

Lemma feed_fast_return pre ds nd rest :
  detected pre = false -> digit_bytes ds -> (4 <= length ds)%nat ->
  is_digit_byte nd = false ->
  feed scan_init (pre ++ marker_bytes ++ ds ++ nd :: rest) =
    inr (fast_url (map byte_val ds)).
Proof.
  intros Hd Hds Hl Hnd.
  replace (pre ++ marker_bytes ++ ds ++ nd :: rest)
    with ((pre ++ marker_bytes ++ ds) ++ nd :: rest)
    by (now rewrite <- !app_assoc).
  rewrite feed_app, feed_port by assumption.
  apply feed_return; simpl; auto. now rewrite length_map.
Qed.

(** The byte that completes the first detection is the last byte of the
    prefix. *)
Lemma first_detected_last p :
  first_detected p ->
  exists q b, p = q ++ [b] /\ detected q = false.
Proof.
  intros [Hd Hn]. destruct (exists_last (l := p)) as (q & b & ->).
  - intros ->. discriminate.
  - rewrite removelast_last in Hn. now exists q, b.
Qed.

(** The prefix of the first detection is the shortest prefix that holds
    the marker. *)
Lemma first_detected_shortest p :
  first_detected p <->
  detected p = true /\
  forall q r, p = q ++ r -> r <> [] -> detected q = false.
Proof.
  split.
  - intros [Hd Hn]. split; [exact Hd|]. intros q r -> Hr.
    rewrite removelast_app in Hn by exact Hr.
    now apply undetected_prefix in Hn.
  - intros [Hd Hs]. split; [exact Hd|].
    destruct (exists_last (l := p)) as (q & b & ->).
    + intros ->. discriminate.
    + rewrite removelast_last. apply (Hs q [b]); [reflexivity | discriminate].
Qed.

(** The first detection puts the loop into the capturing state, with
    nothing captured yet, wherever the bytes of the marker lie in what
    was read. *)
Lemma feed_first_detection p :
  first_detected p ->
  feed scan_init p =
    inl {| output := p; found_bore_pub := true; port_digits := [] |}.
Proof.
  intros H. destruct (first_detected_last _ H) as (q & b & -> & Hq).
  destruct H as [Hd _].
  rewrite feed_app, feed_search; [|reflexivity|exact Hq].
  now rewrite feed_detect.
Qed.

(** The bytes of the marker, with no marker in the text before them, end
    on the first detection. *)
Lemma first_detected_marker pre :
  detected pre = false -> first_detected (pre ++ marker_bytes).
Proof.
  intros H. split.
  - rewrite <- (app_nil_r marker_bytes). apply detected_marker.
  - rewrite marker_bytes_split, app_assoc, removelast_last.
    now apply undetected_stem.
Qed.

Lemma feed_detected_port p ds :
  first_detected p -> digit_bytes ds ->
  feed scan_init (p ++ ds) =
    inl {| output := p ++ ds; found_bore_pub := true;
           port_digits := map byte_val ds |}.
Proof.
  intros Hp Hds. rewrite feed_app, feed_first_detection by assumption.
  now rewrite feed_digits.
Qed.

(** C1, as amended.  Let the bytes that the scan loop reads before its
    budget is used up be [p ++ ds ++ nd :: rest], where [p] is the
    shortest prefix whose decoding holds the marker, [ds] is a run of at
    least four bytes [0]..[9] and [nd] is a byte that is not one of
    [0]..[9].  Then [capture_bore_url] returns
    [http://bore.pub:<ds>/opds/all] together with the child it spawned. *)
Theorem fast_path_returns_port env process p ds nd rest :
  popen env = inl process ->
  stream env = p ++ ds ++ nd :: rest ->
  first_detected p ->
  digit_bytes ds ->
  (4 <= length ds)%nat ->
  is_digit_byte nd = false ->
  exists log,
    capture_bore_url env =
      Done (Some (lit "http://bore.pub:" ++ map byte_val ds ++ lit "/opds/all"),
            process) log.
Proof.
  intros Hp Hs Hd Hds Hl Hnd. apply capture_fast; [assumption|].
  rewrite Hs, app_assoc, feed_app, feed_detected_port by assumption.
  apply feed_return; simpl; auto. now rewrite length_map.
Qed.

(** C2, as amended.  Let [p] be the shortest prefix of what is read whose
    decoding holds the marker, followed by a run [ds] of fewer than four
    bytes [0]..[9] and a byte [nd] that is not one of [0]..[9].  The loop
    does not return at [nd], in no run that has read just these bytes: it
    goes on in the capturing state with [ds] kept in [port_digits].  The
    digits [0]..[9] among the bytes read later are appended to that run,
    and when later bytes without a digit are followed by a run [ds2] that
    brings the total to four or more and by a byte that is not a digit,
    all read within the budget, [capture_bore_url] returns the URL whose
    port is [ds] and [ds2] joined. *)
Theorem short_run_is_kept p ds nd :
  first_detected p ->
  digit_bytes ds ->
  (length ds < 4)%nat ->
  is_digit_byte nd = false ->
  exists st,
    feed scan_init (p ++ ds ++ [nd]) = inl st /\
    (forall start its url l,
       budget_reads start its = p ++ ds ++ [nd] ->
       scan_loop start its scan_init <> Done (FastReturn url) l) /\
    found_bore_pub st = true /\
    port_digits st = map byte_val ds /\
    (forall later st',
       feed st later = inl st' ->
       port_digits st' =
         map byte_val ds ++ map byte_val (filter is_digit_byte later)) /\
    (forall env process mid ds2 nd2 rest,
       popen env = inl process ->
       stream env = (p ++ ds ++ [nd]) ++ mid ++ ds2 ++ nd2 :: rest ->
       no_digit_bytes mid ->
       digit_bytes ds2 ->
       (4 <= length (ds ++ ds2))%nat ->
       is_digit_byte nd2 = false ->
       exists log,
         capture_bore_url env =
           Done (Some (fast_url (map byte_val (ds ++ ds2))), process) log).
Proof.
  intros Hd Hds Hl Hnd.
  assert (Hst : feed scan_init (p ++ ds ++ [nd]) =
                inl {| output := (p ++ ds) ++ [nd];
                       found_bore_pub := true;
                       port_digits := map byte_val ds |}).
  { rewrite app_assoc, feed_app, feed_detected_port by assumption.
    rewrite feed_cons, on_byte_short; simpl; auto. now rewrite length_map. }
  eexists. split; [exact Hst|].
  split.
  { intros start its url l Hb Hloop. apply scan_loop_returns in Hloop.
    rewrite Hb, Hst in Hloop. discriminate. }
  split; [reflexivity|]. split; [reflexivity|].
  split.
  - intros later st' H. now apply feed_appends in H as [_ H].
  - intros env process mid ds2 nd2 rest Hp Hs Hmid Hds2 Hl2 Hnd2.
    apply capture_fast; [assumption|].
    rewrite Hs, feed_app, Hst, feed_app.
    rewrite feed_noise;
      [|reflexivity|assumption|simpl; now rewrite length_map].
    rewrite feed_app, feed_digits; [|reflexivity|assumption].
    cbv beta match.
    rewrite feed_return; [|reflexivity|assumption|].
    + unfold port_digits. now rewrite map_app.
    + unfold port_digits. now rewrite <- map_app, length_map.
Qed.

(** ** The fallback *)

Lemma capture_after_timeout env process st l :
  popen env = inl process ->
  scan_loop (start_clock env) (iterations env) scan_init = Done (TimedOut st) l ->
  exists log,
    capture_bore_url env =
      Done (option_map fallback_url (re_search (decode (output st))), process)
           log.
Proof.
  intros Hp Hl. apply scan_loop_times_out in Hl as [Hf Ht].
  now apply capture_timeout.
Qed.

Lemma url_suffixes_differ p : fallback_url p <> fast_url p.
Proof.
  unfold fallback_url, fast_url. intros H.
  apply app_inv_head, app_inv_head in H. discriminate.
Qed.

(** C3. When the loop has ended on the budget and the buffer, decoded
    with [errors='ignore'], contains the marker directly followed by four
    or five digits, the fallback returns [http://bore.pub:<port>/] for the
    leftmost such match; the path is [/] and not [/opds/all]. *)
Theorem fallback_returns_first_match st pre g :
  match_at (decode (output st)) pre g ->
  (forall pre' g', match_at (decode (output st)) pre' g' ->
                   (length pre <= length pre')%nat) ->
  fallback st =
    Done (Some (lit "http://bore.pub:" ++ g ++ lit "/"))
         [Print (lit "Timeout reached. Searching full output...")] /\
  lit "http://bore.pub:" ++ g ++ lit "/" <>
    lit "http://bore.pub:" ++ g ++ lit "/opds/all" /\
  forall env process l,
    popen env = inl process ->
    scan_loop (start_clock env) (iterations env) scan_init
      = Done (TimedOut st) l ->
    exists log,
      capture_bore_url env =
        Done (Some (lit "http://bore.pub:" ++ g ++ lit "/"), process) log.
Proof.
  intros Hm Hleft.
  pose proof (re_search_leftmost _ _ _ Hm Hleft) as Hs.
  split; [now rewrite fallback_eq, Hs|].
  split; [apply url_suffixes_differ|].
  intros env process l Hp Hl.
  destruct (capture_after_timeout _ _ _ _ Hp Hl) as [log ->].
  rewrite Hs. now exists log.
Qed.

Lemma expires_spec start its :
  expires start its = true <->
  exists now r, In (now, r) its /\ (CAPTURE_TIMEOUT <= now - start)%Q.
Proof.
  induction its as [|[now r] its IH]; simpl.
  - split; [discriminate | intros (? & ? & [] & _)].
  - unfold in_budget at 1.
    destruct (Qle_bool CAPTURE_TIMEOUT (now - start)) eqn:E; simpl.
    + split; [|reflexivity]. intros _. exists now, r.
      split; [now left | now apply Qle_bool_iff].
    + rewrite IH. split.
      * intros (n' & r' & Hin & Hle). exists n', r'. split; [now right | exact Hle].
      * intros (n' & r' & [Heq|Hin] & Hle); [|now exists n', r'].
        injection Heq as <- <-. apply Qle_bool_iff in Hle. congruence.
Qed.

(** C4. When the text that the bytes read decode to holds no marker,
    [capture_bore_url] returns no URL: it is still running as long as no
    loop test finds the 15 seconds used up, it returns [None] with the
    child once one does, and it reads nothing that is recorded behind
    that loop test. *)
Theorem no_marker_no_url env process :
  popen env = inl process ->
  detected (stream env) = false ->
  (timed_out env = false -> exists log, capture_bore_url env = Pending log) /\
  (timed_out env = true ->
   exists log, capture_bore_url env = Done (None, process) log) /\
  (forall its1 now r its2,
     iterations env = its1 ++ (now, r) :: its2 ->
     in_budget (start_clock env) now = false ->
     timed_out env = true /\
     capture_bore_url env =
       capture_bore_url (with_iterations env (its1 ++ [(now, r)]))).
Proof.
  intros Hp Hd.
  assert (Hf : feed scan_init (stream env) =
               inl {| output := stream env; found_bore_pub := false;
                      port_digits := [] |}).
  { now rewrite feed_search. }
  split; [|split].
  - intros Ht. now apply (capture_pending _ _ _ Hp Hf).
  - intros Ht. destruct (capture_timeout _ _ _ Hp Hf Ht) as [log ->].
    simpl output. unfold detected in Hd. rewrite re_search_none by assumption.
    now exists log.
  - intros its1 now r its2 Hi Hn. split.
    + unfold timed_out. rewrite Hi. clear -Hn.
      induction its1 as [|[n1 r1] its1 IH]; simpl; [now rewrite Hn|].
      now destruct (in_budget (start_clock env) n1).
    + rewrite (capture_spawned _ _ Hp).
      rewrite (capture_spawned (with_iterations env _) process Hp).
      simpl. rewrite Hi. now rewrite scan_loop_cut.
Qed.

(** C9. When the first occurrence of the marker in the decoded buffer is
    followed by six or more digits and the loop has ended on the budget,
    the fallback returns the URL whose port is the first five of them;
    the fast path returns a run of any length, four or more, whole. *)
Theorem fallback_truncates_to_five st pre ds post :
  decode (output st) = pre ++ marker ++ ds ++ post ->
  (forall pre' post', decode (output st) = pre' ++ marker ++ post' ->
                      (length pre <= length pre')%nat) ->
  digits_text ds ->
  (6 <= length ds)%nat ->
  fallback st =
    Done (Some (lit "http://bore.pub:" ++ firstn 5 ds ++ lit "/"))
         [Print (lit "Timeout reached. Searching full output...")] /\
  (forall env process l,
     popen env = inl process ->
     scan_loop (start_clock env) (iterations env) scan_init
       = Done (TimedOut st) l ->
     exists log,
       capture_bore_url env =
         Done (Some (lit "http://bore.pub:" ++ firstn 5 ds ++ lit "/"),
               process) log) /\
  (forall env process pre' ds' nd rest,
     popen env = inl process ->
     stream env = pre' ++ marker_bytes ++ ds' ++ nd :: rest ->
     detected pre' = false ->
     digit_bytes ds' ->
     (4 <= length ds')%nat ->
     is_digit_byte nd = false ->
     exists log,
       capture_bore_url env =
         Done (Some (lit "http://bore.pub:" ++ map byte_val ds'
                     ++ lit "/opds/all"), process) log /\
       length (map byte_val ds') = length ds').
Proof.
  intros Ht Hfirst Hds Hl.
  assert (Hs : re_search (decode (output st)) = Some (firstn 5 ds)).
  { rewrite Ht. rewrite re_search_skip.
    - apply re_search_here. unfold match_here.
      rewrite strip_prefix_app. cbv zeta.
      rewrite take_digits_long by (auto; lia).
      rewrite length_firstn.
      destruct (Nat.leb_spec 4 (Nat.min 5 (length ds))); [reflexivity | lia].
    - intros pre1 c pre2 ->.
      destruct (match_here (c :: pre2 ++ marker ++ ds ++ post)) as [g'|] eqn:E;
        [|reflexivity].
      exfalso. apply match_here_starts, starts_with_spec in E as [t Et].
      assert (Heq : decode (output st) = pre1 ++ marker ++ t).
      { rewrite Ht, <- app_assoc. f_equal. exact Et. }
      apply Hfirst in Heq. rewrite length_app in Heq. simpl in Heq. lia. }
  split; [now rewrite fallback_eq, Hs|]. split.
  - intros env process l Hp Hloop.
    destruct (capture_after_timeout _ _ _ _ Hp Hloop) as [log ->].
    rewrite Hs. now exists log.
  - intros env process pre' ds' nd rest Hp Hst Hd Hdb Hl' Hnd.
    destruct (capture_fast env process (fast_url (map byte_val ds')) Hp)
      as [log Hlog].
    + rewrite Hst. now apply feed_fast_return.
    + exists log. split; [exact Hlog | apply length_map].
Qed.

Lemma ascii_digit_re_digit c : is_ascii_digit c = true -> re_digit c = true.
Proof.
  unfold re_digit, is_ascii, is_ascii_digit. intros H. rewrite H.
  apply andb_prop in H as [_ H]. apply Z.leb_le in H.
  destruct (Z.ltb_spec c 0x80); [reflexivity | lia].
Qed.

Lemma ascii_digits_text p : ascii_digits p -> digits_text p.
Proof. apply Forall_impl. exact ascii_digit_re_digit. Qed.

(** The shape of every URL returned. *)
Lemma capture_url_shape env url process log :
  capture_bore_url env = Done (Some url, process) log ->
  exists p suffix,
    url = lit "http://bore.pub:" ++ p ++ suffix /\
    (4 <= length p)%nat /\
    digits_text p /\
    (suffix = lit "/opds/all" /\ ascii_digits p \/
     suffix = lit "/" /\ (length p <= 5)%nat).
Proof.
  intros H. apply capture_Done in H as [_ [[Hf _] | (st & Hf & _ & Hu)]].
  - simpl text_of in Hf.
    pose proof (feed_digits_inv scan_init (stream env)) as Hinv.
    rewrite Hf in Hinv. destruct Hinv as (p & -> & Hp & Hl); [constructor|].
    exists p, (lit "/opds/all"). repeat split; auto using ascii_digits_text.
  - destruct (re_search (decode (output st))) as [g|] eqn:E; [|discriminate].
    injection Hu as ->.
    apply re_search_sound in E as [pre (post & _ & Hd & [H4 H5] & _)].
    exists g, (lit "/"). repeat split; auto.
Qed.

(** C10. Every URL that [capture_bore_url] returns is
    [http://bore.pub:<p><suffix>] where [<p>] is at least four characters,
    all of them decimal digits, and [<suffix>] is [/opds/all] (fast path,
    ASCII digits) or [/] (fallback, at most five digits). *)
Theorem returned_port_is_numeric env url process log :
  capture_bore_url env = Done (Some url, process) log ->
  exists p suffix,
    url = lit "http://bore.pub:" ++ p ++ suffix /\
    (4 <= length p)%nat /\
    digits_text p /\
    (suffix = lit "/opds/all" /\ ascii_digits p \/
     suffix = lit "/" /\ (length p <= 5)%nat).
Proof. apply capture_url_shape. Qed.

(** ** The notifier *)

Lemma call_log a r : log_of (call a r) = [a].
Proof. now destruct r. Qed.

Lemma no_Terminate_with_exit body exit :
  no_Terminate (log_of body) -> no_Terminate (log_of exit) ->
  no_Terminate (log_of (with_exit body exit)).
Proof.
  destruct body as [[] l|e l|l]; simpl; intros Hb He; auto.
  - now apply no_Terminate_after.
  - destruct exit; simpl in *; now apply no_Terminate_app.
Qed.

Lemma no_Terminate_try_except {A} (o : outcome A) catches handler :
  no_Terminate (log_of o) ->
  (forall e, no_Terminate (log_of (handler e))) ->
  no_Terminate (log_of (try_except o catches handler)).
Proof.
  destruct o as [a l|e l|l]; simpl; auto.
  intros Ho Hh. destruct (catches e); [|assumption].
  now apply no_Terminate_after.
Qed.

Lemma no_Terminate_call a r :
  is_Terminate a = false -> no_Terminate (log_of (call a r)).
Proof. intros H. rewrite call_log. now repeat constructor. Qed.

Lemma send_email_log url env : no_Terminate (log_of (send_email url env)).
Proof.
  unfold send_email, send_email_body. cbv zeta.
  apply no_Terminate_try_except.
  - apply no_Terminate_bind; [now apply no_Terminate_call|]. intros _.
    apply no_Terminate_bind.
    + apply no_Terminate_with_exit; [|now apply no_Terminate_call].
      apply no_Terminate_bind; [now apply no_Terminate_call|]. intros _.
      apply no_Terminate_bind; [now apply no_Terminate_call|]. intros _.
      now apply no_Terminate_call.
    + intros _. simpl. repeat constructor.
  - intros e. simpl. repeat constructor.
Qed.

(** ** The orchestration *)

Lemma capture_url_truthy env url process log :
  capture_bore_url env = Done (Some url, process) log ->
  truthy (Some url) = true.
Proof.
  intros H. apply capture_url_shape in H as (p & suffix & -> & _). reflexivity.
Qed.

Lemma main_after_email menv url process l1 sent l2 :
  capture_bore_url (capture menv) = Done (Some url, process) l1 ->
  send_email url (smtp menv) = Done sent l2 ->
  main menv =
    after (l1
           ++ [Print ([10] ++ rule);
               Print ([0x1F310] ++ lit " SUCCESS! Bore URL: " ++ url);
               Print (rule ++ [10])]
           ++ l2
           ++ [Print (if sent
                      then [0x1F4E7] ++ lit " Email sent successfully!"
                      else [0x26A0; 0xFE0F]
                           ++ lit "  Email failed, but URL is shown above");
               Print ([10] ++ lit "Bore is running. Press Ctrl+C to stop.")])
      (wait_child process (wait_r menv)).
Proof.
  intros Hc He. unfold main. rewrite Hc.
  unfold bind at 1. cbv beta match. unfold fst, snd.
  rewrite (capture_url_truthy _ _ _ _ Hc). unfold text_of, say.
  unfold bind at 1 2 3. rewrite He. unfold bind at 1.
  destruct sent; unfold bind at 1 2; rewrite !after_after;
    f_equal; now rewrite <- !app_assoc.
Qed.

Lemma wait_child_interrupted process :
  wait_child process (Some KeyboardInterrupt) =
    Done tt [Wait process; Terminate process; Print ([10] ++ lit "Stopped.")].
Proof. reflexivity. Qed.

(** The log of the wait: the wait, and after an interrupt the request to
    terminate and the last line. *)
Lemma wait_child_log_eq process r :
  log_of (wait_child process r) =
    Wait process ::
    match r with
    | Some KeyboardInterrupt =>
      [Terminate process; Print ([10] ++ lit "Stopped.")]
    | _ => []
    end.
Proof. destruct r as [[m|]|]; reflexivity. Qed.

(** ** The program on a console *)

Lemma main_io_captured console menv url process l1 :
  capture_bore_url_io (io_capture menv) = Done (Some url, process) l1 ->
  printable console (success_line url) = true ->
  main_io console menv =
    after (l1 ++ [Print ([10] ++ rule);
                  Print (success_line url);
                  Print (rule ++ [10])])
      (perform sent <- send_email_io console url (io_smtp menv) ;;
       perform _ <- (if sent : bool
                     then say_io console mail_sent_line
                     else say_io console mail_failed_line) ;;
       perform _ <- say_io console
                      ([10] ++ lit "Bore is running. Press Ctrl+C to stop.") ;;
       wait_child process (io_wait menv)).
Proof.
  intros Hc Hp. unfold main_io. rewrite Hc.
  unfold bind at 1. cbv beta match. unfold fst, snd.
  rewrite (capture_io_truthy _ _ _ _ Hc). unfold text_of.
  rewrite (say_io_printable console ([10] ++ rule))
    by (now apply printable_ascii).
  rewrite (say_io_printable console (success_line url)) by assumption.
  rewrite (say_io_printable console (rule ++ [10]))
    by (now apply printable_ascii).
  unfold bind at 1 2 3. rewrite !after_after.
  f_equal. now rewrite <- !app_assoc.
Qed.

(** The first line of the other branch is the only one with a character
    beyond ASCII. *)
Lemma printable_no_url_line console :
  printable console no_url_line = has_char console 0x274C.
Proof.
  unfold printable, no_url_line, encodable.
  destruct console as [has text]. cbn [has_char]. vm_compute.
  now destruct (has 10060).
Qed.

Lemma main_io_no_url console menv process l1 :
  capture_bore_url_io (io_capture menv) = Done (None, process) l1 ->
  main_io console menv =
    if has_char console 0x274C
    then after (l1 ++ [Print no_url_line;
                       Print (lit "Running bore directly so you can see the port...");
                       Print rule])
           (call (Run BORE_ARGV) (io_run menv))
    else Raised (UnicodeEncodeError console no_url_line) l1.
Proof.
  intros Hc. unfold main_io. rewrite Hc.
  unfold bind at 1. cbv beta match. unfold fst, snd, truthy.
  unfold say_io at 1. rewrite printable_no_url_line.
  destruct (has_char console 0x274C).
  - rewrite (say_io_printable console (lit "Running bore directly so you can see the port..."))
      by (now apply printable_ascii).
    rewrite (say_io_printable console rule) by (now apply printable_ascii).
    unfold bind at 1 2 3. rewrite !after_after.
    f_equal. now rewrite <- !app_assoc.
  - simpl. now rewrite app_nil_r.
Qed.

(** On a console that has every character, and without exceptions in the
    loop other than those of the read, [main_io] is [main]. *)
Lemma main_io_plain console menv :
  (forall c, has_char console c = true) ->
  main_io console (plain_main menv) = main menv.
Proof.
  intros H. unfold main_io, main, plain_main, success_line, mail_sent_line,
    mail_failed_line, no_url_line.
  cbn [io_capture io_smtp io_wait io_run]. rewrite capture_io_plain.
  destruct (capture_bore_url (capture menv)) as [[url p] l|e l|l];
    [|reflexivity|reflexivity].
  unfold bind at 1.
  match goal with
  | |- _ = bind (Done ?a ?l) ?k => change (bind (Done a l) k) with (after l (k a))
  end.
  cbv beta match. unfold fst, snd.
  destruct (truthy url).
  - now rewrite !say_io_all, send_email_io_plain by assumption.
  - now rewrite !say_io_all by assumption.
Qed.

(** C5, as amended.  [send_email] returns [True] when every step of the
    mail session returns and the console takes the line of line 103.
    When a step fails with an [Exception] and the console takes the
    diagnostic of line 106, [send_email] has attempted the steps up to
    the failure, has closed the session it opened, prints the diagnostic
    with the text of that exception and returns [False].  In the program,
    after a URL was captured, when the console also takes the line with
    the URL and the notice of line 120, the URL is on the console before
    the first mail step, and behind the diagnostic the program prints the
    notice and the last line and waits for the child; an interrupt of
    that wait is followed by the request to terminate, and nothing else
    follows. *)
Theorem email_failure_is_not_fatal console url env :
  (mail_exception env = None ->
   printable console email_sent = true ->
   send_email_io console url env =
     Done true (mail_steps url env ++ [Print email_sent])) /\
  (forall e,
     mail_exception env = Some e ->
     is_Exception e = true ->
     printable console (email_failed e) = true ->
     send_email_io console url env =
       Done false (mail_steps url env ++ [Print (email_failed e)]) /\
     forall menv process l1,
       io_smtp menv = env ->
       capture_bore_url_io (io_capture menv) = Done (Some url, process) l1 ->
       printable console (success_line url) = true ->
       printable console mail_failed_line = true ->
       log_of (main_io console menv) =
         l1
         ++ [Print ([10] ++ rule);
             Print ([0x1F310] ++ lit " SUCCESS! Bore URL: " ++ url);
             Print (rule ++ [10])]
         ++ mail_steps url env
         ++ [Print (email_failed e);
             Print ([0x26A0; 0xFE0F]
                    ++ lit "  Email failed, but URL is shown above");
             Print ([10] ++ lit "Bore is running. Press Ctrl+C to stop.");
             Wait process]
         ++ match io_wait menv with
            | Some KeyboardInterrupt =>
              [Terminate process; Print ([10] ++ lit "Stopped.")]
            | _ => []
            end).
Proof.
  split; [apply send_email_io_sent|].
  intros e Hm He Hp.
  pose proof (send_email_io_failed console url env e Hm He Hp) as Hs.
  split; [exact Hs|].
  intros menv process l1 <- Hc Hu Hw.
  rewrite (main_io_captured _ _ _ _ _ Hc Hu), Hs.
  unfold bind at 1. cbv beta match.
  rewrite (say_io_printable console mail_failed_line) by assumption.
  rewrite (say_io_printable console
             ([10] ++ lit "Bore is running. Press Ctrl+C to stop."))
    by (now apply printable_ascii).
  unfold bind at 1 2. rewrite !log_of_after, wait_child_log_eq.
  unfold success_line, mail_failed_line. rewrite <- !app_assoc. reflexivity.
Qed.


(** C7. When [process.wait()] is interrupted after a URL was captured,
    the program asks the child to terminate once, says so and ends
    normally: the log ends with the wait, one [terminate] of that child
    and the last message, and holds no other [terminate]. *)
Theorem interrupt_terminates_child_once menv url process l1 sent l2 :
  capture_bore_url (capture menv) = Done (Some url, process) l1 ->
  send_email url (smtp menv) = Done sent l2 ->
  wait_r menv = Some KeyboardInterrupt ->
  exists l,
    main menv =
      Done tt (l ++ [Wait process; Terminate process;
                     Print ([10] ++ lit "Stopped.")]) /\
    no_Terminate l /\
    filter is_Terminate (log_of (main menv)) = [Terminate process].
Proof.
  intros Hc He Hw.
  rewrite (main_after_email _ _ _ _ _ _ Hc He), Hw, wait_child_interrupted.
  eexists. split; [reflexivity|].
  assert (Hl : no_Terminate
                 (l1 ++ [Print ([10] ++ rule);
                         Print ([0x1F310] ++ lit " SUCCESS! Bore URL: " ++ url);
                         Print (rule ++ [10])]
                  ++ l2
                  ++ [Print (if sent
                             then [0x1F4E7] ++ lit " Email sent successfully!"
                             else [0x26A0; 0xFE0F]
                                  ++ lit "  Email failed, but URL is shown above");
                      Print ([10] ++ lit "Bore is running. Press Ctrl+C to stop.")])).
  { pose proof (capture_log (capture menv)) as H1. rewrite Hc in H1.
    pose proof (send_email_log url (smtp menv)) as H2. rewrite He in H2.
    simpl in H1, H2.
    repeat (apply no_Terminate_app; split); auto; repeat constructor. }
  split; [exact Hl|].
  unfold after, log_of. rewrite filter_app.
  replace (filter is_Terminate _) with (@nil action); [reflexivity|].
  symmetry. clear -Hl. induction Hl as [|a l Ha _ IH]; [reflexivity|].
  simpl. now rewrite Ha.
Qed.

(** C8. Whenever [capture_bore_url] returns - with the URL of the fast
    path, with the URL of the fallback, or with no URL - it returns the
    handle of the child it spawned, it has spawned nothing else, and it
    has not terminated that child. *)
Theorem capture_returns_its_child env url process log :
  capture_bore_url env = Done (url, process) log ->
  popen env = inl process /\
  (exists log',
     log = Print (lit "Starting bore.exe...")
           :: Spawn process BORE_ARGV
                (env_set "TERM" "dumb" (env_set "NO_COLOR" "1" (os_environ env)))
           :: log' /\
     Forall (fun a => match a with Spawn _ _ _ => False | _ => True end) log') /\
  no_Terminate log.
Proof.
  intros H. pose proof (capture_log env) as Hl. rewrite H in Hl.
  destruct (capture_Done _ _ _ _ H) as [Hp _].
  split; [exact Hp|]. split; [|exact Hl].
  rewrite (capture_spawned _ _ Hp) in H.
  apply after_Done in H as (l0 & H & ->).
  eexists. split; [reflexivity|].
  constructor; [exact I|].
  apply bind_Done in H as (ex & la & lb & Hloop & Hk & ->).
  apply Forall_app. split.
  - clear -Hloop. revert Hloop. generalize scan_init. generalize la.
    induction (iterations env) as [|[now r] its IH]; intros l st;
      [discriminate|].
    rewrite scan_loop_cons.
    destruct (in_budget (start_clock env) now);
      [|intros [= _ <-]; constructor].
    destruct r as [b| |e].
    + unfold on_byte.
      repeat match goal with
      | |- context [if ?c then _ else _] => destruct c
      end;
      try (intros [= _ <-]; repeat constructor);
      intros Ha; apply after_Done in Ha as (l' & Ha & ->);
      repeat constructor; eapply IH; eassumption.
    + apply IH.
    + intros Ha. apply after_Done in Ha as (l' & Ha & ->).
      constructor; [exact I|]. eapply IH; eassumption.
  - destruct ex as [u|st].
    + injection Hk as _ <-. constructor.
    + rewrite fallback_eq in Hk. simpl in Hk. injection Hk as _ <-.
      repeat constructor.
Qed.

(** * Further properties of the program *)

(** ** What decides the result of [capture_bore_url] *)



(** ** The state of the scanner *)

Lemma detected_nil : detected [] = false.
Proof. reflexivity. Qed.

(** X3. As long as the loop has not returned, [output] is every byte
    read so far, in order, and [found_bore_pub] says whether that buffer
    decodes to text with the marker in it. *)
Theorem scan_state_invariant bs st :
  feed scan_init bs = inl st ->
  output st = bs /\ found_bore_pub st = detected bs.
Proof.
  intros H. split; [now apply feed_output in H|].
  assert (G : forall bs st0 st1,
            found_bore_pub st0 = detected (output st0) ->
            feed st0 bs = inl st1 ->
            found_bore_pub st1 = detected (output st1)).
  { clear. induction bs as [|b bs IH]; intros st0 st1 Hi.
    - now intros [= <-].
    - rewrite feed_cons. destruct (found_bore_pub st0) eqn:Hf.
      + destruct (on_byte_cases st0 b)
          as [(s1 & l & -> & Ho & Hk & _) | (l & -> & _)]; [|discriminate].
        apply IH. rewrite (Hk Hf), Ho.
        symmetry. now apply detected_mono.
      + destruct (on_byte_search st0 b Hf) as [l ->]. apply IH. reflexivity. }
  rewrite (G bs scan_init st eq_refl H). f_equal. now apply feed_output in H.
Qed.

(** X4. Digits read before the marker is detected never enter the port:
    while the buffer decodes to text without the marker the loop goes on
    with [port_digits] empty; and behind the first occurrence of the
    marker [port_digits] is exactly the digits among the bytes read since,
    in order, whatever lies between them. *)
Theorem port_digits_invariant pre :
  detected pre = false ->
  feed scan_init pre =
    inl {| output := pre; found_bore_pub := false; port_digits := [] |} /\
  forall rest st,
    feed scan_init (pre ++ marker_bytes ++ rest) = inl st ->
    port_digits st = digits_of rest.
Proof.
  intros Hd. split; [now apply feed_search|].
  intros rest st. rewrite app_assoc, feed_app, feed_first_marker by assumption.
  intros H. now apply feed_appends in H as [_ H].
Qed.

Lemma digits_of_cons_digit b bs :
  is_digit_byte b = true -> digits_of (b :: bs) = byte_val b :: digits_of bs.
Proof. unfold digits_of. simpl. now intros ->. Qed.

Lemma digits_of_cons_other b bs :
  is_digit_byte b = false -> digits_of (b :: bs) = digits_of bs.
Proof. unfold digits_of. simpl. now intros ->. Qed.

(** Where the capturing state returns: at the first byte that is not a
    digit and has four digits or more before it, counting the digits held
    already. *)
Lemma feed_return_point st rest url :
  found_bore_pub st = true ->
  feed st rest = inr url ->
  exists r1 nd r2,
    rest = r1 ++ nd :: r2 /\
    is_digit_byte nd = false /\
    url = fast_url (port_digits st ++ digits_of r1) /\
    (4 <= length (port_digits st ++ digits_of r1))%nat /\
    forall a x b, r1 = a ++ x :: b -> is_digit_byte x = false ->
                  (length (port_digits st ++ digits_of a) < 4)%nat.
Proof.
  revert st. induction rest as [|c rest IH]; intros st Hf; [discriminate|].
  rewrite feed_cons. destruct (is_digit_byte c) eqn:Hc.
  - rewrite on_byte_digit by assumption. intros H.
    apply IH in H as (r1 & nd & r2 & -> & Hnd & -> & Hl & Hmin); [|reflexivity].
    simpl port_digits in *.
    exists (c :: r1), nd, r2. rewrite digits_of_cons_digit by assumption.
    split; [reflexivity|]. split; [assumption|].
    split; [now rewrite <- app_assoc|]. split; [now rewrite <- app_assoc in Hl|].
    intros a x b Ha Hx. destruct a as [|a0 a].
    + injection Ha as -> _. congruence.
    + injection Ha as <- ->. rewrite digits_of_cons_digit by assumption.
      specialize (Hmin a x b eq_refl Hx). now rewrite <- app_assoc in Hmin.
  - destruct (Nat.leb_spec 4 (length (port_digits st))) as [Hge|Hlt].
    + rewrite on_byte_return by assumption. intros [= <-].
      exists [], c, rest. unfold digits_of. simpl. rewrite app_nil_r.
      repeat split; auto. intros [|? ?] ? ? ?; discriminate.
    + rewrite on_byte_short by assumption. intros H.
      apply IH in H as (r1 & nd & r2 & -> & Hnd & -> & Hl & Hmin); [|reflexivity].
      simpl port_digits in *.
      exists (c :: r1), nd, r2. rewrite digits_of_cons_other by assumption.
      repeat split; auto.
      intros a x b Ha Hx. destruct a as [|a0 a].
      * unfold digits_of. simpl. now rewrite app_nil_r.
      * injection Ha as <- ->. rewrite digits_of_cons_other by assumption.
        now apply (Hmin a x b).
Qed.

(** X5. Behind the first occurrence of the marker, a URL comes either
    from the fallback, after the budget has run out, or from the fast
    path; and every return of the fast path happens at the first byte
    that is not a digit and has four or more digits between the marker
    and itself, with all of those digits, in order, as the port and
    whatever lay between them left out. *)
Theorem fast_path_return_point env process pre rest url log :
  stream env = pre ++ marker_bytes ++ rest ->
  detected pre = false ->
  capture_bore_url env = Done (Some url, process) log ->
  (exists r1 nd r2,
     rest = r1 ++ nd :: r2 /\
     is_digit_byte nd = false /\
     url = lit "http://bore.pub:" ++ digits_of r1 ++ lit "/opds/all" /\
     (4 <= length (digits_of r1))%nat /\
     forall a x b, r1 = a ++ x :: b -> is_digit_byte x = false ->
                   (length (digits_of a) < 4)%nat) \/
  (timed_out env = true /\
   exists g, url = lit "http://bore.pub:" ++ g ++ lit "/").
Proof.
  intros Hs Hd Hc.
  apply capture_Done in Hc as [_ [[Hf _] | (st & _ & Ht & Hu)]].
  - left. simpl text_of in Hf.
    rewrite Hs, app_assoc, feed_app, feed_first_marker in Hf by assumption.
    apply feed_return_point in Hf; [|reflexivity]. exact Hf.
  - right. split; [assumption|].
    destruct (re_search (decode (output st))) as [g|]; [|discriminate].
    injection Hu as ->. now exists g.
Qed.

(** ** The fallback, in full *)

Lemma starts_with_app_long m s t :
  (length m <= length s)%nat ->
  starts_with m (s ++ t) = starts_with m s.
Proof.
  revert s. induction m as [|x m IH]; intros s Hl; [reflexivity|].
  destruct s as [|c s]; [simpl in Hl; lia|].
  simpl. rewrite IH; [reflexivity | simpl in Hl; lia].
Qed.

(** The search starts at the first occurrence of the marker. *)
Lemma re_search_first_marker t rest :
  contains marker t = false ->
  re_search (t ++ marker ++ rest) = re_search (marker ++ rest).
Proof.
  intros Hc. apply re_search_skip. intros p1 c p2 ->.
  destruct (match_here (c :: p2 ++ marker ++ rest)) as [g|] eqn:E;
    [|reflexivity].
  exfalso. apply match_here_starts in E.
  assert (Hstem : contains marker ((p1 ++ c :: p2) ++ lit "bore.pub") = false).
  { rewrite marker_split at 1. rewrite contains_app_no_last.
    - now rewrite <- marker_split.
    - cbv. intuition discriminate. }
  assert (Eq : c :: p2 ++ marker ++ rest
               = (c :: p2 ++ lit "bore.pub") ++ [58] ++ rest).
  { rewrite marker_split at 1.
    rewrite <- (app_assoc (lit "bore.pub") [58] rest).
    now rewrite (app_assoc p2). }
  rewrite Eq, starts_with_app_long in E
    by (simpl; rewrite length_app; simpl; lia).
  pose proof (contains_app_r marker p1 _ (contains_starts _ _ E)) as K.
  assert (X : (p1 ++ c :: p2) ++ lit "bore.pub"
              = p1 ++ (c :: p2 ++ lit "bore.pub"))
    by now rewrite <- app_assoc.
  rewrite X in Hstem. congruence.
Qed.

Lemma re_search_complete s g :
  re_search s = Some g ->
  exists pre,
    match_at s pre g /\
    forall pre' g', match_at s pre' g' -> (length pre <= length pre')%nat.
Proof.
  induction s as [|c s IH].
  - rewrite re_search_nil. destruct (match_here []) eqn:E; [|discriminate].
    intros [= <-]. exists []. split; [now apply match_here_sound|].
    intros; simpl; lia.
  - rewrite re_search_cons. destruct (match_here (c :: s)) eqn:E.
    + intros [= <-]. exists []. split; [now apply match_here_sound|].
      intros; simpl; lia.
    + intros H. destruct (IH H) as (pre & (post & -> & Hr) & Hleft).
      exists (c :: pre). split; [exists post; now split|].
      intros pre' g' Hm. destruct pre' as [|c' pre'].
      * apply match_here_complete in Hm. congruence.
      * destruct Hm as (post' & Ht & Hr'). injection Ht as <- Ht.
        simpl. apply le_n_S. apply (Hleft pre' g').
        exists post'. now split.
Qed.

Lemma re_search_no_match s :
  re_search s = None -> forall pre g, ~ match_at s pre g.
Proof.
  induction s as [|c s IH].
  - rewrite re_search_nil. destruct (match_here []) eqn:E; [discriminate|].
    intros _ pre g Hm. destruct pre as [|c pre].
    + apply match_here_complete in Hm. congruence.
    + destruct Hm as (post & Ht & _). discriminate.
  - rewrite re_search_cons. destruct (match_here (c :: s)) eqn:E; [discriminate|].
    intros H pre g Hm. destruct pre as [|c' pre].
    + apply match_here_complete in Hm. congruence.
    + destruct Hm as (post & Ht & Hr). injection Ht as <- Ht.
      apply (IH H pre g). exists post. now split.
Qed.

(** X6. What the fallback returns, whatever the buffer: the URL built from
    the group of the leftmost match of the pattern, when the decoded
    buffer has a match, and no URL exactly when no position of the decoded
    buffer has the marker directly followed by four digits. *)
Theorem fallback_characterised st :
  (exists pre g,
     fallback st =
       Done (Some (lit "http://bore.pub:" ++ g ++ lit "/"))
            [Print (lit "Timeout reached. Searching full output...")] /\
     match_at (decode (output st)) pre g /\
     forall pre' g', match_at (decode (output st)) pre' g' ->
                     (length pre <= length pre')%nat) \/
  (fallback st =
     Done None [Print (lit "Timeout reached. Searching full output...")] /\
   forall pre g, ~ match_at (decode (output st)) pre g).
Proof.
  rewrite fallback_eq.
  destruct (re_search (decode (output st))) as [g|] eqn:E.
  - left. apply re_search_complete in E as (pre & Hm & Hleft).
    now exists pre, g.
  - right. split; [reflexivity|]. now apply re_search_no_match.
Qed.

Lemma digit_bytes_ascii ds :
  digit_bytes ds -> Forall (fun b => byte_val b < 0x80) ds.
Proof.
  unfold digit_bytes. apply Forall_impl.
  intros b H. unfold is_digit_byte, is_ascii_digit in H.
  apply andb_prop in H as [_ H]. apply Z.leb_le in H. lia.
Qed.

Lemma digit_bytes_text ds : digit_bytes ds -> digits_text (map byte_val ds).
Proof.
  intros H. apply Forall_map. unfold digit_bytes in H. revert H.
  apply Forall_impl.
  intros b Hb. now apply ascii_digit_re_digit.
Qed.

Lemma digits_no_colon ds : digit_bytes ds -> ~ In 58 (map byte_val ds).
Proof.
  intros H Hin. apply in_map_iff in Hin as (b & Hb & Hin).
  unfold digit_bytes in H. rewrite Forall_forall in H. apply H in Hin.
  unfold is_digit_byte, is_ascii_digit in Hin. rewrite Hb in Hin.
  discriminate.
Qed.

(** The pattern on a buffer that ends in the digits behind the first
    occurrence of the marker. *)
Lemma re_search_digit_tail t ds :
  contains marker t = false -> digit_bytes ds ->
  re_search (t ++ marker ++ map byte_val ds) =
    if (4 <=? length ds)%nat then Some (firstn 5 (map byte_val ds)) else None.
Proof.
  intros Hc Hd. rewrite re_search_first_marker by assumption.
  pose proof (digit_bytes_text _ Hd) as Ht.
  destruct (Nat.leb_spec 4 (length ds)) as [H4|H4].
  - apply re_search_here. unfold match_here.
    rewrite strip_prefix_app. cbv zeta.
    assert (T : take_digits 5 (map byte_val ds) = firstn 5 (map byte_val ds)).
    { rewrite <- (app_nil_r (map byte_val ds)) at 1.
      destruct (Nat.le_gt_cases 5 (length ds)) as [H5|H5].
      - apply take_digits_long; [assumption | now rewrite length_map].
      - rewrite take_digits_run;
          [|assumption|rewrite length_map; lia|right; exact I].
        now rewrite firstn_all2 by (rewrite length_map; lia). }
    rewrite T, length_firstn, length_map.
    destruct (Nat.leb_spec 4 (Nat.min 5 (length ds))); [reflexivity | lia].
  - assert (Hm : match_here (marker ++ map byte_val ds) = None).
    { unfold match_here. rewrite strip_prefix_app. cbv zeta.
      destruct (take_digits_spec 5 (map byte_val ds)) as (r & Hr & _).
      assert (length (take_digits 5 (map byte_val ds)) <= length ds)%nat.
      { rewrite <- (length_map byte_val ds). rewrite Hr at 2.
        rewrite length_app. lia. }
      destruct (Nat.leb_spec 4 (length (take_digits 5 (map byte_val ds))));
        [lia | reflexivity]. }
    change (marker ++ map byte_val ds)
      with (98 :: lit "ore.pub:" ++ map byte_val ds) in *.
    rewrite re_search_cons, Hm. apply re_search_none.
    change (lit "ore.pub:") with (lit "ore.pub" ++ [58]).
    rewrite <- app_assoc, marker_split.
    change ([58] ++ map byte_val ds) with (58 :: map byte_val ds).
    assert (E : lit "ore.pub" ++ 58 :: map byte_val ds
                = (lit "ore.pub" ++ [58]) ++ map byte_val ds)
      by now rewrite <- app_assoc.
    rewrite E, contains_app_no_last by (now apply digits_no_colon).
    reflexivity.
Qed.

(** X7. When the bytes read end in the digits behind the first occurrence
    of the marker - no byte that is not a digit was read after them - the
    fast path does not return, however long the run; once the budget has
    run out the result is the fallback URL with the first five digits at
    most, or no URL when the run is shorter than four. *)
Theorem digit_tail_goes_to_fallback env process pre ds :
  popen env = inl process ->
  stream env = pre ++ marker_bytes ++ ds ->
  detected pre = false ->
  digit_bytes ds ->
  (timed_out env = false -> exists log, capture_bore_url env = Pending log) /\
  (timed_out env = true ->
   exists log,
     capture_bore_url env =
       Done (if (4 <=? length ds)%nat
             then Some (lit "http://bore.pub:" ++ firstn 5 (map byte_val ds)
                        ++ lit "/")
             else None, process) log).
Proof.
  intros Hp Hs Hd Hds.
  pose proof (feed_port pre ds Hd Hds) as Hf. rewrite <- Hs in Hf.
  split; intros Ht.
  - now apply (capture_pending _ _ _ Hp Hf).
  - destruct (capture_timeout _ _ _ Hp Hf Ht) as [log ->]. exists log.
    simpl output. rewrite Hs, decode_app_marker.
    rewrite (decode_ascii_bytes ds) by (now apply digit_bytes_ascii).
    rewrite re_search_digit_tail by assumption.
    now destruct (4 <=? length ds)%nat.
Qed.

(** X8. For output that is ASCII throughout, the marker is looked for in
    the bytes themselves: when the bytes read do not contain the bytes of
    the marker and the budget has run out, no URL is returned. *)
Theorem ascii_stream_without_marker env process :
  popen env = inl process ->
  Forall (fun b => byte_val b < 0x80) (stream env) ->
  contains (map byte_val marker_bytes) (map byte_val (stream env)) = false ->
  timed_out env = true ->
  detected (stream env) = false /\
  exists log, capture_bore_url env = Done (None, process) log.
Proof.
  intros Hp Ha Hc Ht.
  assert (Hd : detected (stream env) = false).
  { unfold detected. now rewrite decode_ascii_bytes. }
  split; [exact Hd|].
  assert (Hf : feed scan_init (stream env) =
               inl {| output := stream env; found_bore_pub := false;
                      port_digits := [] |}) by now rewrite feed_search.
  destruct (capture_timeout _ _ _ Hp Hf Ht) as [log ->].
  simpl output. unfold detected in Hd. rewrite re_search_none by assumption.
  now exists log.
Qed.

(** ** The child and its environment *)

Lemma env_get_set_same k v env : env_get k (env_set k v env) = Some v.
Proof.
  induction env as [|[k' v'] env IH]; simpl.
  - now rewrite String.eqb_refl.
  - destruct (String.eqb k k') eqn:E; simpl; rewrite ?E, ?String.eqb_refl; auto.
Qed.

Lemma env_get_set_other k k0 v env :
  k <> k0 -> env_get k (env_set k0 v env) = env_get k env.
Proof.
  intros Hne. induction env as [|[k' v'] env IH]; simpl.
  - destruct (String.eqb_spec k k0); [contradiction | reflexivity].
  - destruct (String.eqb_spec k0 k') as [->|Hk]; simpl.
    + destruct (String.eqb_spec k k'); [contradiction | reflexivity].
    + now rewrite IH.
Qed.

(** X9. The child is started once, with the fixed arguments and with the
    environment of the script in which [NO_COLOR] is [1] and [TERM] is
    [dumb]; every other variable reaches the child unchanged. *)
Theorem child_environment env process :
  popen env = inl process ->
  exists child_env rest,
    log_of (capture_bore_url env)
      = Print (lit "Starting bore.exe...")
        :: Spawn process ["bore.exe"; "local"; "8080"; "--to"; "bore.pub"]%string
             child_env
        :: rest /\
    Forall (fun a => match a with Spawn _ _ _ => False | _ => True end) rest /\
    env_get "NO_COLOR" child_env = Some "1"%string /\
    env_get "TERM" child_env = Some "dumb"%string /\
    forall k, k <> "NO_COLOR"%string -> k <> "TERM"%string ->
              env_get k child_env = env_get k (os_environ env).
Proof.
  intros Hp. rewrite (capture_spawned _ _ Hp), log_of_after.
  do 2 eexists. split; [reflexivity|]. split; [|split; [|split]].
  - constructor; [exact I|].
    assert (L : forall st its,
              Forall (fun a => match a with Spawn _ _ _ => False | _ => True end)
                (log_of (scan_loop (start_clock env) its st))).
    { intros st its. revert st.
      induction its as [|[now r] its IH]; intros st; [constructor|].
      rewrite scan_loop_cons.
      destruct (in_budget (start_clock env) now); [|constructor].
      destruct r as [b| |e].
      - assert (B : Forall (fun a => match a with
                                     | Spawn _ _ _ => False | _ => True end)
                      match on_byte st b with
                      | inl (_, l) => l | inr (_, l) => l end).
        { unfold on_byte.
          repeat match goal with
          | |- context [if ?c then _ else _] => destruct c
          end; repeat constructor. }
        destruct (on_byte st b) as [[st' l'] | [url l']]; [|exact B].
        rewrite log_of_after. apply Forall_app. split; [exact B | apply IH].
      - apply IH.
      - rewrite log_of_after. constructor; [exact I | apply IH]. }
    specialize (L scan_init (iterations env)).
    destruct (scan_loop (start_clock env) (iterations env) scan_init)
      as [[u|st] l|e l|l]; unfold bind; rewrite ?fallback_eq;
      simpl log_of in *; try exact L;
      apply Forall_app; split; try exact L; repeat constructor.
  - rewrite env_get_set_other by discriminate. apply env_get_set_same.
  - apply env_get_set_same.
  - intros k H1 H2. now rewrite !env_get_set_other.
Qed.

(** X10. When the child cannot be started, the exception of [Popen]
    leaves [capture_bore_url] and the program: nothing was spawned, no
    mail is attempted and [bore] is not run directly either. *)
Theorem popen_failure_propagates menv e :
  popen (capture menv) = inr e ->
  capture_bore_url (capture menv)
    = Raised e [Print (lit "Starting bore.exe...")] /\
  main menv = Raised e [Print (lit "Starting bore.exe...")].
Proof.
  intros Hp.
  assert (H : capture_bore_url (capture menv)
              = Raised e [Print (lit "Starting bore.exe...")]).
  { unfold capture_bore_url. now rewrite Hp. }
  split; [exact H|]. unfold main. now rewrite H.
Qed.

(** ** Pauses *)




(** ** Kinds of actions in a log *)

Section Logs.

Variable P : action -> Prop.

Lemma logs_after {A} l (o : outcome A) :
  Forall P l -> Forall P (log_of o) -> Forall P (log_of (after l o)).
Proof. intros. rewrite log_of_after. now apply Forall_app. Qed.

Lemma logs_bind {A B} (o : outcome A) (k : A -> outcome B) :
  Forall P (log_of o) -> (forall a, Forall P (log_of (k a))) ->
  Forall P (log_of (bind o k)).
Proof.
  destruct o as [a l| |]; simpl; auto. intros. now apply logs_after.
Qed.

Lemma logs_with_exit body exit :
  Forall P (log_of body) -> Forall P (log_of exit) ->
  Forall P (log_of (with_exit body exit)).
Proof.
  destruct body as [[] l|e l|l]; simpl; intros Hb He; auto.
  - now apply logs_after.
  - destruct exit; simpl in *; now apply Forall_app.
Qed.

Lemma logs_try_except {A} (o : outcome A) catches handler :
  Forall P (log_of o) -> (forall e, Forall P (log_of (handler e))) ->
  Forall P (log_of (try_except o catches handler)).
Proof.
  destruct o as [a l|e l|l]; simpl; auto.
  intros Ho Hh. destruct (catches e); [|assumption]. now apply logs_after.
Qed.

Lemma logs_call a r : P a -> Forall P (log_of (call a r)).
Proof. intros. rewrite call_log. now repeat constructor. Qed.

Hypothesis P_Print : forall s, P (Print s).

Lemma logs_send_email url env :
  (forall a, mail_action a = true -> P a) ->
  Forall P (log_of (send_email url env)).
Proof.
  intros Hm. unfold send_email, send_email_body. cbv zeta.
  apply logs_try_except.
  - apply logs_bind; [now apply logs_call, Hm|]. intros _.
    apply logs_bind.
    + apply logs_with_exit; [|now apply logs_call, Hm].
      apply logs_bind; [now apply logs_call, Hm|]. intros _.
      apply logs_bind; [now apply logs_call, Hm|]. intros _.
      now apply logs_call, Hm.
    + intros _. simpl. repeat constructor; apply P_Print.
  - intros e. simpl. repeat constructor; apply P_Print.
Qed.

Hypothesis P_Sleep : forall d, P (Sleep d).

Lemma logs_scan_loop start its st : Forall P (log_of (scan_loop start its st)).
Proof.
  revert st. induction its as [|[now r] its IH]; intros st; [constructor|].
  rewrite scan_loop_cons.
  destruct (in_budget start now); [|constructor].
  destruct r as [b| |e'].
  - assert (B : Forall P match on_byte st b with
                         | inl (_, l) => l | inr (_, l) => l end).
    { unfold on_byte.
      repeat match goal with
      | |- context [if ?c then _ else _] => destruct c
      end; repeat constructor; apply P_Print. }
    destruct (on_byte st b) as [[st' l'] | [url l']]; [|exact B].
    now apply logs_after.
  - apply IH.
  - apply logs_after; [repeat constructor; apply P_Sleep | apply IH].
Qed.

Hypothesis P_Spawn : forall h argv env, P (Spawn h argv env).

Lemma logs_capture env : Forall P (log_of (capture_bore_url env)).
Proof.
  destruct (popen env) as [p|e] eqn:Hp.
  - rewrite (capture_spawned _ _ Hp).
    apply logs_after; [repeat constructor; auto|].
    apply logs_bind; [apply logs_scan_loop|].
    intros [u|st]; [constructor|].
    rewrite fallback_eq. simpl. repeat constructor. apply P_Print.
  - unfold capture_bore_url. rewrite Hp. simpl. repeat constructor.
    apply P_Print.
Qed.

Lemma logs_scan_loop_io start its st :
  Forall P (log_of (scan_loop_io start its st)).
Proof.
  revert st. induction its as [|it its IH]; intros st; [constructor|].
  rewrite scan_loop_io_cons.
  destruct (loop_test it) as [now|e0]; [|constructor].
  destruct (in_budget start now); [|constructor].
  assert (Hexc : forall st',
             Forall P (log_of (on_except (sleep_r it)
                                 (scan_loop_io start its st')))).
  { intros st'. unfold on_except. destruct (sleep_r it).
    - repeat constructor. apply P_Sleep.
    - apply logs_after; [repeat constructor; apply P_Sleep | apply IH]. }
  destruct (read_r it) as [b| |e1]; [|apply IH|apply Hexc].
  assert (B : Forall P match on_byte_io (fault it) st b with
                       | GoesOn _ l | Returns _ l | Caught _ _ l => l
                       end).
  { unfold on_byte_io.
    repeat match goal with
    | |- context [at_line ?f ?l] => destruct (at_line f l)
    | |- context [if ?c then _ else _] => destruct c
    end; repeat constructor; apply P_Print. }
  destruct (on_byte_io (fault it) st b) as [st' l1|url l1|e1 st' l1].
  - now apply logs_after.
  - exact B.
  - now apply logs_after.
Qed.

Lemma logs_capture_io env : Forall P (log_of (capture_bore_url_io env)).
Proof.
  destruct (io_popen env) as [p|e] eqn:Hp.
  - rewrite (capture_io_spawned _ _ Hp).
    apply logs_after; [repeat constructor; auto|].
    apply logs_bind; [apply logs_scan_loop_io|].
    intros [u|st]; [constructor|].
    rewrite fallback_eq. simpl. repeat constructor. apply P_Print.
  - unfold capture_bore_url_io. rewrite Hp. simpl. repeat constructor.
    apply P_Print.
Qed.

End Logs.

Lemma capture_no_mail env :
  Forall (fun a => mail_action a = false) (log_of (capture_bore_url env)).
Proof. now apply logs_capture. Qed.

Lemma capture_untouched env : child_untouched (log_of (capture_bore_url env)).
Proof. now apply logs_capture. Qed.

Lemma capture_io_no_mail env :
  Forall (fun a => mail_action a = false) (log_of (capture_bore_url_io env)).
Proof. now apply logs_capture_io. Qed.

Lemma capture_io_untouched env :
  child_untouched (log_of (capture_bore_url_io env)).
Proof. now apply logs_capture_io. Qed.

Lemma mail_steps_untouched url env : child_untouched (mail_steps url env).
Proof.
  unfold mail_steps.
  destruct (connect_r env), (starttls_r env), (login_r env);
    repeat constructor.
Qed.

Lemma send_email_untouched url env :
  child_untouched (log_of (send_email url env)).
Proof.
  apply logs_send_email; [easy|]. intros [] H; try discriminate; exact I.
Qed.

(** ** The mail session *)

(** The actions of [send_email]: the steps of the session, and behind
    them at most one line on the console. *)
Lemma send_email_steps url env :
  exists tail,
    log_of (send_email url env) = mail_steps url env ++ tail /\
    Forall (fun a => mail_action a = false) tail.
Proof.
  destruct env as [c s g m q].
  unfold send_email, send_email_body, mail_steps, message. cbv zeta.
  cbn [connect_r starttls_r login_r send_r quit_r].
  destruct c as [[?|]|], s as [[?|]|], g as [[?|]|], m as [[?|]|],
           q as [[?|]|];
    (eexists; split; [reflexivity | repeat constructor]).
Qed.

Lemma mail_steps_body url env m :
  In (SmtpSend m) (log_of (send_email url env)) ->
  mail_body m = lit "Your Nostos Web URL:" ++ [10; 10] ++ url ++ [10; 10]
                ++ lit "Use this to access Nostos from anywhere." /\
  mail_from m = SENDER_EMAIL /\ mail_to m = RECIPIENT_EMAIL.
Proof.
  destruct (send_email_steps url env) as (tail & -> & Ht).
  intros Hin. apply in_app_or in Hin as [Hin|Hin].
  - unfold mail_steps in Hin.
    destruct (connect_r env), (starttls_r env), (login_r env); simpl in Hin;
      repeat match goal with
      | H : _ \/ _ |- _ => destruct H
      | H : False |- _ => destruct H
      | H : _ = SmtpSend _ |- _ => inversion H; clear H; subst
      end; repeat split.
  - rewrite Forall_forall in Ht. apply Ht in Hin. discriminate.
Qed.

(** X12. [send_email] never logs in on a connection that was not upgraded
    with STARTTLS, and never sends without having logged in: the login,
    with the account of the script, is attempted only when connecting and
    the upgrade succeeded, and the message - the URL between the two fixed
    lines, from the sender to the recipient - only when the login
    succeeded as well. *)
Theorem mail_steps_in_order url env :
  (forall user password,
     In (SmtpLogin user password) (log_of (send_email url env)) ->
     connect_r env = None /\ starttls_r env = None /\
     user = SENDER_EMAIL /\ password = SENDER_PASSWORD) /\
  (forall m,
     In (SmtpSend m) (log_of (send_email url env)) ->
     connect_r env = None /\ starttls_r env = None /\ login_r env = None /\
     mail_body m = lit "Your Nostos Web URL:" ++ [10; 10] ++ url ++ [10; 10]
                   ++ lit "Use this to access Nostos from anywhere." /\
     mail_from m = SENDER_EMAIL /\ mail_to m = RECIPIENT_EMAIL).
Proof.
  destruct (send_email_steps url env) as (tail & -> & Ht).
  assert (Hn : forall a, mail_action a = true -> ~ In a tail).
  { intros a Ha Hin. rewrite Forall_forall in Ht. apply Ht in Hin. congruence. }
  unfold mail_steps. split.
  - intros user password Hin. apply in_app_or in Hin as [Hin|Hin];
      [|now apply Hn in Hin].
    destruct (connect_r env), (starttls_r env), (login_r env); simpl in Hin;
      repeat match goal with
      | H : _ \/ _ |- _ => destruct H
      | H : False |- _ => destruct H
      | H : _ = SmtpLogin _ _ |- _ => inversion H; clear H; subst
      end; auto.
  - intros m Hin. apply in_app_or in Hin as [Hin|Hin];
      [|now apply Hn in Hin].
    destruct (connect_r env), (starttls_r env), (login_r env); simpl in Hin;
      repeat match goal with
      | H : _ \/ _ |- _ => destruct H
      | H : False |- _ => destruct H
      | H : _ = SmtpSend _ |- _ => inversion H; clear H; subst
      end; repeat split; auto.
Qed.

(** X13. Every mail session that was opened is closed: when connecting
    succeeds, [QUIT] is sent exactly once, as the last action of the
    session, whichever step fails; when connecting fails nothing else is
    attempted. *)
Theorem mail_session_is_closed url env :
  exists tail,
    Forall (fun a => mail_action a = false) tail /\
    match connect_r env with
    | None =>
      exists steps,
        log_of (send_email url env)
          = SmtpConnect SMTP_SERVER SMTP_PORT :: steps ++ SmtpQuit :: tail /\
        ~ In SmtpQuit steps
    | Some _ =>
      log_of (send_email url env) = SmtpConnect SMTP_SERVER SMTP_PORT :: tail
    end.
Proof.
  destruct (send_email_steps url env) as (tail & -> & Ht).
  exists tail. split; [exact Ht|]. unfold mail_steps.
  destruct (connect_r env); [reflexivity|].
  exists (SmtpStartTls ::
          match starttls_r env with
          | Some _ => []
          | None =>
            SmtpLogin SENDER_EMAIL SENDER_PASSWORD ::
            match login_r env with
            | Some _ => []
            | None => [SmtpSend (message url)]
            end
          end).
  split.
  - simpl. now rewrite <- app_assoc.
  - destruct (starttls_r env), (login_r env); simpl; intuition discriminate.
Qed.

(** ** The program *)

Lemma main_captured menv url process l1 :
  capture_bore_url (capture menv) = Done (Some url, process) l1 ->
  main menv =
    after (l1 ++ [Print ([10] ++ rule);
                  Print ([0x1F310] ++ lit " SUCCESS! Bore URL: " ++ url);
                  Print (rule ++ [10])])
      (perform sent <- send_email url (smtp menv) ;;
       perform _ <- (if sent : bool
                     then say ([0x1F4E7] ++ lit " Email sent successfully!")
                     else say ([0x26A0; 0xFE0F]
                               ++ lit "  Email failed, but URL is shown above")) ;;
       perform _ <- say ([10] ++ lit "Bore is running. Press Ctrl+C to stop.") ;;
       wait_child process (wait_r menv)).
Proof.
  intros Hc. unfold main. rewrite Hc.
  unfold bind at 1. cbv beta match. unfold fst, snd.
  rewrite (capture_url_truthy _ _ _ _ Hc). unfold text_of, say.
  unfold bind at 1 2 3. rewrite !after_after.
  f_equal. now rewrite <- !app_assoc.
Qed.

Lemma main_no_url menv process l1 :
  capture_bore_url (capture menv) = Done (None, process) l1 ->
  main menv =
    after (l1 ++ [Print ([10; 0x274C]
                         ++ lit " Could not capture bore URL automatically");
                  Print (lit "Running bore directly so you can see the port...");
                  Print rule])
      (call (Run BORE_ARGV) (run_r menv)).
Proof.
  intros Hc. unfold main. rewrite Hc.
  unfold bind at 1. cbv beta match. unfold fst, snd, truthy, say.
  unfold bind at 1 2 3. rewrite !after_after.
  f_equal. now rewrite <- !app_assoc.
Qed.

(** X14. An exception that leaves [send_email] is the exception of a mail
    step that [except Exception] does not catch, such as an interrupt, or
    the [UnicodeEncodeError] of the handler's own print.  In both cases
    the program ends with that exception right there: the URL is on the
    console, the mail steps up to the failure are done, and the child is
    neither waited for nor asked to terminate. *)
Theorem raising_mail_ends_program console menv url process l1 e l2 :
  capture_bore_url_io (io_capture menv) = Done (Some url, process) l1 ->
  printable console (success_line url) = true ->
  send_email_io console url (io_smtp menv) = Raised e l2 ->
  (mail_exception (io_smtp menv) = Some e /\ is_Exception e = false \/
   exists e0,
     e = UnicodeEncodeError console (email_failed e0) /\
     printable console (email_failed e0) = false) /\
  main_io console menv =
    Raised e
      (l1 ++ [Print ([10] ++ rule);
              Print ([0x1F310] ++ lit " SUCCESS! Bore URL: " ++ url);
              Print (rule ++ [10])]
       ++ mail_steps url (io_smtp menv)) /\
  child_untouched (log_of (main_io console menv)).
Proof.
  intros Hc Hu He.
  destruct (send_email_io_Raised _ _ _ _ _ He) as [-> Hwhy].
  split.
  { destruct Hwhy as [H | (e0 & -> & Hp & _)]; [now left|].
    right. now exists e0. }
  assert (Hm : main_io console menv =
               Raised e
                 (l1 ++ [Print ([10] ++ rule);
                         Print ([0x1F310] ++ lit " SUCCESS! Bore URL: " ++ url);
                         Print (rule ++ [10])]
                  ++ mail_steps url (io_smtp menv))).
  { rewrite (main_io_captured _ _ _ _ _ Hc Hu), He. simpl.
    now rewrite <- app_assoc. }
  split; [exact Hm|]. rewrite Hm. simpl log_of.
  pose proof (capture_io_untouched (io_capture menv)) as H1.
  rewrite Hc in H1. simpl in H1. apply Forall_app. split; [exact H1|].
  do 3 (constructor; [exact I|]). apply mail_steps_untouched.
Qed.

(** X15. When no URL was captured and the console takes the cross of the
    notice (U+274C), the program prints the notice and runs [bore] a
    second time, attached to the terminal, and ends as that run ends.
    When the console does not take it, the program ends with the
    [UnicodeEncodeError] of that print, and [bore] is not run.  Either
    way it sends no mail, and the child of the capture is neither waited
    for nor asked to terminate. *)
Theorem no_url_runs_bore_directly console menv process l1 :
  capture_bore_url_io (io_capture menv) = Done (None, process) l1 ->
  (has_char console 0x274C = true ->
   log_of (main_io console menv)
     = l1 ++ [Print ([10; 0x274C]
                     ++ lit " Could not capture bore URL automatically");
              Print (lit "Running bore directly so you can see the port...");
              Print (repeat 61 50);
              Run ["bore.exe"; "local"; "8080"; "--to"; "bore.pub"]%string] /\
   result_of (main_io console menv)
     = match io_run menv with
       | None => Some (inl tt)
       | Some e => Some (inr e)
       end) /\
  (has_char console 0x274C = false ->
   main_io console menv =
     Raised (UnicodeEncodeError console
               ([10; 0x274C]
                ++ lit " Could not capture bore URL automatically")) l1) /\
  Forall (fun a => mail_action a = false) (log_of (main_io console menv)) /\
  child_untouched (log_of (main_io console menv)).
Proof.
  intros Hc. rewrite (main_io_no_url _ _ _ _ Hc).
  pose proof (capture_io_untouched (io_capture menv)) as H1.
  rewrite Hc in H1.
  pose proof (capture_io_no_mail (io_capture menv)) as H2.
  rewrite Hc in H2. simpl in H1, H2.
  destruct (has_char console 0x274C).
  - split.
    { intros _. rewrite log_of_after, call_log, result_of_after, <- app_assoc.
      split; [reflexivity | now destruct (io_run menv)]. }
    split; [discriminate|].
    rewrite log_of_after, call_log, <- app_assoc.
    split; apply Forall_app; split; auto; repeat constructor.
  - split; [discriminate|]. split; [reflexivity|]. now split.
Qed.

Lemma wait_child_cases process r :
  wait_child process r = Done tt [Wait process] /\ r = None \/
  wait_child process r =
    Done tt [Wait process; Terminate process; Print ([10] ++ lit "Stopped.")]
    /\ r = Some KeyboardInterrupt \/
  exists msg, wait_child process r = Raised (PyException msg) [Wait process]
              /\ r = Some (PyException msg).
Proof.
  destruct r as [[msg|]|]; [right; right; now exists msg | right; left | left];
    now split.
Qed.

(** Either the program never touches the child, or a URL was captured,
    [send_email] returned, and the child is touched by [wait_child] only. *)
Lemma main_touches_child menv :
  child_untouched (log_of (main menv)) \/
  exists url process l1 sent l2 before,
    capture_bore_url (capture menv) = Done (Some url, process) l1 /\
    send_email url (smtp menv) = Done sent l2 /\
    log_of (main menv)
      = before ++ log_of (wait_child process (wait_r menv)) /\
    child_untouched before.
Proof.
  pose proof (capture_untouched (capture menv)) as H1.
  destruct (capture_bore_url (capture menv)) as [[[u|] p] l1|e l1|l1] eqn:Hc.
  - pose proof (send_email_untouched u (smtp menv)) as H2.
    destruct (send_email u (smtp menv)) as [sent l2|e l2|l2] eqn:He.
    + right. exists u, p, l1, sent, l2. eexists.
      split; [reflexivity|]. split; [exact He|].
      rewrite (main_after_email _ _ _ _ _ _ Hc He), log_of_after.
      split; [reflexivity|]. simpl in H1, H2.
      repeat (apply Forall_app; split); auto; repeat constructor.
    + left. rewrite (main_captured _ _ _ _ Hc), He. simpl in *.
      repeat (apply Forall_app; split); auto; repeat constructor.
    + left. rewrite (main_captured _ _ _ _ Hc), He. simpl in *.
      repeat (apply Forall_app; split); auto; repeat constructor.
  - left. rewrite (main_no_url _ _ _ Hc), log_of_after, call_log.
    simpl in H1. repeat (apply Forall_app; split); auto; repeat constructor.
  - left. unfold main. rewrite Hc. exact H1.
  - left. unfold main. rewrite Hc. exact H1.
Qed.

(** X16. The program touches a child only after a URL was captured and
    the mail was attempted, and only the child that [capture_bore_url]
    returned: that is the only child it waits for, and it asks it to
    terminate only when the wait was interrupted.  A wait that ends by
    itself or fails otherwise is never followed by [terminate]. *)
Theorem terminate_only_on_interrupt menv h :
  (In (Wait h) (log_of (main menv)) ->
   exists url l, capture_bore_url (capture menv) = Done (Some url, h) l) /\
  (In (Terminate h) (log_of (main menv)) ->
   wait_r menv = Some KeyboardInterrupt /\
   exists url l, capture_bore_url (capture menv) = Done (Some url, h) l).
Proof.
  destruct (main_touches_child menv)
    as [Hu | (url & p & l1 & sent & l2 & before & Hc & He & -> & Hb)].
  - unfold child_untouched in Hu. rewrite Forall_forall in Hu.
    split; intros Hin; apply Hu in Hin; destruct Hin.
  - unfold child_untouched in Hb. rewrite Forall_forall in Hb.
    split; intros Hin; apply in_app_or in Hin as [Hin|Hin];
      try (apply Hb in Hin; destruct Hin).
    + destruct (wait_child_cases p (wait_r menv))
        as [[Hw _] | [[Hw _] | (msg & Hw & _)]];
        rewrite Hw in Hin; simpl in Hin;
        repeat match goal with
        | H : _ \/ _ |- _ => destruct H
        | H : False |- _ => destruct H
        | H : _ = Wait _ |- _ => inversion H; clear H; subst
        end; eauto.
    + destruct (wait_child_cases p (wait_r menv))
        as [[Hw _] | [[Hw Hr] | (msg & Hw & _)]];
        rewrite Hw in Hin; simpl in Hin;
        repeat match goal with
        | H : _ \/ _ |- _ => destruct H
        | H : False |- _ => destruct H
        | H : _ = Terminate _ |- _ => inversion H; clear H; subst
        end; eauto.
Qed.

(** X17. The URL that is mailed is the URL that was captured and shown:
    whenever the program sends a message, [capture_bore_url] had returned
    a URL, that URL is on the console, and the body of the message is that
    URL between the two fixed lines. *)
Theorem mailed_url_is_captured_url menv m :
  In (SmtpSend m) (log_of (main menv)) ->
  exists url process l,
    capture_bore_url (capture menv) = Done (Some url, process) l /\
    In (Print ([0x1F310] ++ lit " SUCCESS! Bore URL: " ++ url))
       (log_of (main menv)) /\
    mail_body m = lit "Your Nostos Web URL:" ++ [10; 10] ++ url ++ [10; 10]
                  ++ lit "Use this to access Nostos from anywhere." /\
    mail_from m = SENDER_EMAIL /\ mail_to m = RECIPIENT_EMAIL.
Proof.
  intros Hin.
  pose proof (capture_no_mail (capture menv)) as H1.
  assert (Hno : forall l, Forall (fun a => mail_action a = false) l ->
                          ~ In (SmtpSend m) l).
  { intros l Hl Hi. rewrite Forall_forall in Hl. apply Hl in Hi. discriminate. }
  destruct (capture_bore_url (capture menv)) as [[[u|] p] l1|e l1|l1] eqn:Hc.
  - exists u, p, l1. split; [reflexivity|].
    rewrite (main_captured _ _ _ _ Hc), log_of_after in Hin |- *.
    split; [apply in_or_app; left; apply in_or_app; right; simpl; auto|].
    apply in_app_or in Hin as [Hin|Hin].
    { exfalso. revert Hin. apply Hno. simpl in H1.
      apply Forall_app. split; [exact H1 | repeat constructor]. }
    assert (Hs : In (SmtpSend m) (log_of (send_email u (smtp menv)))).
    { destruct (send_email u (smtp menv)) as [sent l2|e l2|l2];
        [|exact Hin|exact Hin].
      unfold bind at 1 in Hin. rewrite log_of_after in Hin.
      apply in_app_or in Hin as [Hin|Hin]; [exact Hin|]. exfalso.
      destruct sent; unfold say, bind in Hin; rewrite !log_of_after in Hin;
        destruct (wait_child_cases p (wait_r menv))
          as [[Hw _] | [[Hw _] | (msg & Hw & _)]];
        rewrite Hw in Hin; simpl in Hin; intuition discriminate. }
    destruct (mail_steps_body u (smtp menv) m Hs) as (H2 & H3 & H4).
    auto.
  - exfalso. rewrite (main_no_url _ _ _ Hc), log_of_after, call_log in Hin.
    revert Hin. apply Hno. simpl in H1.
    repeat (apply Forall_app; split); auto; repeat constructor.
  - exfalso. unfold main in Hin. rewrite Hc in Hin. revert Hin. now apply Hno.
  - exfalso. unfold main in Hin. rewrite Hc in Hin. revert Hin. now apply Hno.
Qed.

End Program.

(** * The properties on sample runs *)

(** The marker is in the text although a byte that the decoder drops lies
    between its bytes. *)
Example marker_across_dropped_byte :
  detected (bytes_lit "bore" ++ [xff] ++ bytes_lit ".pub:") = true /\
  exists log,
    capture_bore_url sample_digits sample_digits
      (sample_env (bytes_lit "bore" ++ [xff] ++ bytes_lit ".pub:1234 ") [])
    = Done (Some (lit "http://bore.pub:1234/opds/all"), 7%nat) log.
Proof. split; [reflexivity|]. eexists. vm_compute. reflexivity. Qed.

(** C1 as stated fails on two runs.  In the first the marker, its only
    occurrence, is followed by [1234] and a newline, but the loop test
    behind the last digit comes at second 16 and finds the budget used
    up: the newline is never read, and the fallback answers with the path
    [/].  In the second every byte is read in time, and the second
    occurrence of the marker is followed by [3456] and a space, but the
    run [12] behind the first occurrence is still in [port_digits]: the
    port returned is [123456]. *)
Lemma fast_path_counterexample :
  (written (iterations (sample_env (bytes_lit "bore.pub:1234")
                                   [(16%Q, RByte x0a)]))
     = [] ++ marker_bytes ++ bytes_lit "1234" ++ x0a :: [] /\
   detected [] = false /\
   (exists log,
      capture_bore_url sample_digits sample_digits
        (sample_env (bytes_lit "bore.pub:1234") [(16%Q, RByte x0a)])
      = Done (Some (lit "http://bore.pub:1234/"), 7%nat) log) /\
   lit "http://bore.pub:1234/"
     <> lit "http://bore.pub:" ++ map byte_val (bytes_lit "1234")
        ++ lit "/opds/all") /\
  (stream (sample_env (bytes_lit "bore.pub:12 bore.pub:3456 ") [])
     = bytes_lit "bore.pub:12 " ++ marker_bytes ++ bytes_lit "3456"
       ++ x20 :: [] /\
   (exists log,
      capture_bore_url sample_digits sample_digits
        (sample_env (bytes_lit "bore.pub:12 bore.pub:3456 ") [])
      = Done (Some (lit "http://bore.pub:123456/opds/all"), 7%nat) log) /\
   lit "http://bore.pub:123456/opds/all"
     <> lit "http://bore.pub:" ++ map byte_val (bytes_lit "3456")
        ++ lit "/opds/all").
Proof.
  split.
  - split; [reflexivity|]. split; [reflexivity|].
    split; [eexists; vm_compute; reflexivity | vm_compute; discriminate].
  - split; [reflexivity|].
    split; [eexists; vm_compute; reflexivity | vm_compute; discriminate].
Qed.

(** The leftmost match, not the first occurrence of the marker. *)
Example fallback_second_occurrence :
  fallback sample_digits
    {| output := bytes_lit "bore.pub:12 bore.pub:34567";
       found_bore_pub := true; port_digits := [] |}
  = Done (Some (lit "http://bore.pub:34567/"))
         [Print (lit "Timeout reached. Searching full output...")].
Proof. vm_compute. reflexivity. Qed.

Example fallback_spec_buffer :
  fallback sample_digits
    {| output := bytes_lit "...bore.pub:54321 ...";
       found_bore_pub := true; port_digits := [] |}
  = Done (Some (lit "http://bore.pub:54321/"))
         [Print (lit "Timeout reached. Searching full output...")].
Proof. vm_compute. reflexivity. Qed.

(** A byte that the decoder drops ends the run of digits: the text reads
    [bore.pub:12345], the port returned is [1234]. *)
Example dropped_byte_ends_the_run :
  Utf8.decode (bytes_lit "bore.pub:1234" ++ [xff] ++ bytes_lit "5 ")
    = lit "bore.pub:12345 " /\
  exists log,
    capture_bore_url sample_digits sample_digits
      (sample_env (bytes_lit "bore.pub:1234" ++ [xff] ++ bytes_lit "5 ") [])
    = Done (Some (lit "http://bore.pub:1234/opds/all"), 7%nat) log.
Proof. split; [reflexivity|]. eexists. vm_compute. reflexivity. Qed.

(** Digits beyond ASCII are no digits for the loop, which sees them byte
    by byte: [bore.pub:] followed by four Arabic-Indic digits and a space,
    with second 16 behind it, goes to the fallback. *)
Example unicode_digits_go_to_fallback :
  Utf8.decode (bytes_lit "bore.pub:"
          ++ [xd9; xa1; xd9; xa2; xd9; xa3; xd9; xa4; x20])
    = lit "bore.pub:" ++ [0x661; 0x662; 0x663; 0x664; 32] /\
  exists log,
    capture_bore_url sample_digits sample_digits
      (sample_env (bytes_lit "bore.pub:"
                   ++ [xd9; xa1; xd9; xa2; xd9; xa3; xd9; xa4; x20])
                  [(16%Q, REmpty)])
    = Done (Some (lit "http://bore.pub:" ++ [0x661; 0x662; 0x663; 0x664]
                  ++ lit "/"), 7%nat) log.
Proof. split; [reflexivity|]. eexists. vm_compute. reflexivity. Qed.

(** C1 on a run where the port line is read in time. *)
Lemma fast_path_returns_port_witness :
  exists log,
    capture_bore_url sample_digits sample_digits
      (sample_env (bytes_lit "listening at bore.pub:12345 ok") [])
    = Done (Some (lit "http://bore.pub:" ++ map byte_val (bytes_lit "12345")
                  ++ lit "/opds/all"), 7%nat) log.
Proof.
  apply (fast_path_returns_port sample_digits sample_digits
           (sample_env (bytes_lit "listening at bore.pub:12345 ok") [])
           7%nat (bytes_lit "listening at bore.pub:") (bytes_lit "12345") x20
           (bytes_lit "ok")).
  - reflexivity.
  - vm_compute. reflexivity.
  - split; vm_compute; reflexivity.
  - repeat constructor.
  - simpl. lia.
  - reflexivity.
Defined.

(** C2 as stated fails on a run with two occurrences of the marker, every
    byte read in time.  The second occurrence is followed by [34], fewer
    than four digits, and a space.  The run [12] behind the first
    occurrence is still in [port_digits], and the fast path returns at
    that space, with the port [1234]; with the space not yet read, it has
    not returned. *)
Lemma short_run_counterexample :
  stream (sample_env (bytes_lit "bore.pub:12 bore.pub:34 ") [])
    = bytes_lit "bore.pub:12 " ++ marker_bytes ++ bytes_lit "34" ++ [x20] /\
  digit_bytes (bytes_lit "34") /\
  (length (bytes_lit "34") < 4)%nat /\
  is_digit_byte x20 = false /\
  (exists log,
     capture_bore_url sample_digits sample_digits
       (sample_env (bytes_lit "bore.pub:12 bore.pub:34") [])
     = Pending log) /\
  (exists log,
     capture_bore_url sample_digits sample_digits
       (sample_env (bytes_lit "bore.pub:12 bore.pub:34 ") [])
     = Done (Some (lit "http://bore.pub:1234/opds/all"), 7%nat) log).
Proof.
  split; [reflexivity|]. split; [repeat constructor|].
  split; [simpl; lia|]. split; [reflexivity|].
  split; eexists; vm_compute; reflexivity.
Qed.

(** C2 on the run with two occurrences of the marker. *)
Lemma short_run_is_kept_witness :
  exists log,
    capture_bore_url sample_digits sample_digits
      (sample_env (bytes_lit "bore.pub:12 bore.pub:3456 ") [])
    = Done (Some (fast_url (map byte_val (bytes_lit "12" ++ bytes_lit "3456"))),
            7%nat) log.
Proof.
  destruct (short_run_is_kept sample_digits sample_digits
              (bytes_lit "bore.pub:") (bytes_lit "12") x20)
    as (st & _ & _ & _ & _ & _ & H).
  - split; vm_compute; reflexivity.
  - repeat constructor.
  - simpl. lia.
  - reflexivity.
  - apply (H _ 7%nat (bytes_lit "bore.pub:") (bytes_lit "3456") x20 []).
    + reflexivity.
    + vm_compute. reflexivity.
    + repeat constructor.
    + repeat constructor.
    + simpl. lia.
    + reflexivity.
Defined.

(** C3 on a run whose last byte in time is the last digit. *)
Lemma fallback_returns_first_match_witness :
  exists log,
    capture_bore_url sample_digits sample_digits
      (sample_env (bytes_lit "bore.pub:54321") [(20%Q, REmpty)])
    = Done (Some (lit "http://bore.pub:" ++ lit "54321" ++ lit "/"), 7%nat) log.
Proof.
  destruct (fallback_returns_first_match sample_digits sample_digits
              {| output := bytes_lit "bore.pub:54321"; found_bore_pub := true;
                 port_digits := lit "54321" |} [] (lit "54321"))
    as (_ & _ & H).
  - exists []. split; [reflexivity|]. split; [repeat constructor|].
    split; [simpl; lia | left; reflexivity].
  - intros pre' g' _. simpl. lia.
  - eapply H; [reflexivity|]. vm_compute. reflexivity.
Defined.

(** C4 as stated fails on two runs.  In the first the bytes read hold no
    run of bytes that spells the marker - a byte that the decoder drops
    lies inside it - and the function returns a URL.  In the second
    nothing that is read holds the marker, the read of the last byte is
    followed by a loop test at second 18, three seconds past the budget,
    and that is where the function returns: with the run recorded up to
    that read it has not returned. *)
Lemma no_marker_counterexample :
  (marker_in_bytes (bytes_lit "bore" ++ [xff] ++ bytes_lit ".pub:1234 ")
     = false /\
   exists log,
     capture_bore_url sample_digits sample_digits
       (sample_env (bytes_lit "bore" ++ [xff] ++ bytes_lit ".pub:1234 ") [])
     = Done (Some (lit "http://bore.pub:1234/opds/all"), 7%nat) log) /\
  (marker_in_bytes (bytes_lit "waiting") = false /\
   detected (bytes_lit "waiting") = false /\
   (exists log,
      capture_bore_url sample_digits sample_digits
        (sample_env (bytes_lit "waiting") [])
      = Pending log) /\
   (exists log,
      capture_bore_url sample_digits sample_digits
        (sample_env (bytes_lit "waiting") [(18%Q, REmpty)])
      = Done (None, 7%nat) log) /\
   (CAPTURE_TIMEOUT < 18 - start_clock (sample_env (bytes_lit "waiting") []))%Q).
Proof.
  split.
  - split; [reflexivity|]. eexists. vm_compute. reflexivity.
  - split; [reflexivity|]. split; [reflexivity|].
    split; [eexists; vm_compute; reflexivity|].
    split; [eexists; vm_compute; reflexivity|]. reflexivity.
Qed.

(** C4 on a run with a failed read and no marker. *)
Lemma no_marker_no_url_witness :
  exists log,
    capture_bore_url sample_digits sample_digits
      (sample_env (bytes_lit "error: could not connect to server")
                  [(3%Q, RRaise (PyException (lit "EIO"))); (16%Q, REmpty)])
    = Done (None, 7%nat) log.
Proof.
  destruct (no_marker_no_url sample_digits sample_digits
              (sample_env (bytes_lit "error: could not connect to server")
                 [(3%Q, RRaise (PyException (lit "EIO"))); (16%Q, REmpty)])
              7%nat)
    as (_ & H & _).
  - reflexivity.
  - vm_compute. reflexivity.
  - apply H. vm_compute. reflexivity.
Defined.

(** C5 as stated fails on a console in cp1252, which has neither the
    check mark of line 103 nor the cross of line 106.  With every step of
    the session succeeding, the print of line 103 raises inside the [try],
    the handler's print raises in turn, and [send_email] raises, the mail
    sent.  With the login refused the handler's print raises as well.
    And on any console an interrupt during a step is not an [Exception]:
    it leaves [send_email]. *)
Lemma email_counterexample :
  send_email_io (lit "bore@example.org") (lit "secret") (lit "me@example.org")
    cp1252_console (lit "http://bore.pub:1234/opds/all") smtp_fine
  = Raised
      (PyException
         (lit "'charmap' codec can't encode character '\u274c' in position 0: character maps to <undefined>"))
      [SmtpConnect "smtp.gmail.com" 587; SmtpStartTls;
       SmtpLogin (lit "bore@example.org") (lit "secret");
       SmtpSend (message (lit "bore@example.org") (lit "me@example.org")
                   (lit "http://bore.pub:1234/opds/all"));
       SmtpQuit] /\
  send_email_io (lit "bore@example.org") (lit "secret") (lit "me@example.org")
    cp1252_console (lit "http://bore.pub:1234/opds/all") smtp_login_refused
  = Raised
      (PyException
         (lit "'charmap' codec can't encode character '\u274c' in position 0: character maps to <undefined>"))
      [SmtpConnect "smtp.gmail.com" 587; SmtpStartTls;
       SmtpLogin (lit "bore@example.org") (lit "secret"); SmtpQuit] /\
  send_email_io (lit "bore@example.org") (lit "secret") (lit "me@example.org")
    utf8_console (lit "http://bore.pub:1234/opds/all") smtp_interrupted
  = Raised KeyboardInterrupt
      [SmtpConnect "smtp.gmail.com" 587; SmtpStartTls;
       SmtpLogin (lit "bore@example.org") (lit "secret"); SmtpQuit].
Proof. repeat split; vm_compute; reflexivity. Qed.

(** C5 with a login that the server refuses, on a console that takes the
    lines. *)
Lemma email_failure_is_not_fatal_witness :
  send_email_io (lit "bore@example.org") (lit "secret") (lit "me@example.org")
    utf8_console (lit "http://bore.pub:1234/opds/all") smtp_login_refused
  = Done false
      (mail_steps (lit "bore@example.org") (lit "secret") (lit "me@example.org")
         (lit "http://bore.pub:1234/opds/all") smtp_login_refused
       ++ [Print (email_failed
                    (PyException (lit "(535, b'5.7.8 BadCredentials')")))]) /\
  log_of (main_io sample_digits sample_digits
            (lit "bore@example.org") (lit "secret") (lit "me@example.org")
            utf8_console
            (io_main (map (fun b => byte_step 1 b None)
                        (bytes_lit "bore.pub:1234 "))
               smtp_login_refused None))
    = [Print (lit "Starting bore.exe...");
       Spawn 7%nat BORE_ARGV [("NO_COLOR", "1"); ("TERM", "dumb")]%string;
       Print (lit "Reading bore output...");
       Print (lit "Found 'bore.pub:', capturing port...");
       Print (lit "Captured complete port: 1234")]
      ++ [Print ([10] ++ rule);
          Print ([0x1F310] ++ lit " SUCCESS! Bore URL: "
                 ++ lit "http://bore.pub:1234/opds/all");
          Print (rule ++ [10])]
      ++ mail_steps (lit "bore@example.org") (lit "secret")
           (lit "me@example.org") (lit "http://bore.pub:1234/opds/all")
           smtp_login_refused
      ++ [Print (email_failed
                   (PyException (lit "(535, b'5.7.8 BadCredentials')")));
          Print ([0x26A0; 0xFE0F]
                 ++ lit "  Email failed, but URL is shown above");
          Print ([10] ++ lit "Bore is running. Press Ctrl+C to stop.");
          Wait 7%nat]
      ++ [].
Proof.
  destruct (email_failure_is_not_fatal sample_digits sample_digits
              (lit "bore@example.org") (lit "secret") (lit "me@example.org")
              utf8_console (lit "http://bore.pub:1234/opds/all")
              smtp_login_refused) as [_ H].
  destruct (H (PyException (lit "(535, b'5.7.8 BadCredentials')")))
    as [H1 H2].
  - reflexivity.
  - reflexivity.
  - vm_compute. reflexivity.
  - split; [exact H1|].
    apply (H2 (io_main (map (fun b => byte_step 1 b None)
                          (bytes_lit "bore.pub:1234 "))
                 smtp_login_refused None) 7%nat).
    + reflexivity.
    + vm_compute. reflexivity.
    + vm_compute. reflexivity.
    + vm_compute. reflexivity.
Defined.



(** C7 on a run that is interrupted while waiting. *)
Lemma interrupt_terminates_child_once_witness :
  filter is_Terminate
    (log_of (main sample_digits sample_digits
               (lit "bore@example.org") (lit "secret") (lit "me@example.org")
               (sample_main (bytes_lit "bore.pub:1234 ") [] smtp_fine
                  (Some KeyboardInterrupt))))
  = [Terminate 7%nat].
Proof.
  edestruct (interrupt_terminates_child_once sample_digits sample_digits
               (lit "bore@example.org") (lit "secret") (lit "me@example.org")
               (sample_main (bytes_lit "bore.pub:1234 ") [] smtp_fine
                  (Some KeyboardInterrupt))
               (lit "http://bore.pub:1234/opds/all") 7%nat)
    as (l & _ & _ & H).
  - vm_compute. reflexivity.
  - vm_compute. reflexivity.
  - reflexivity.
  - exact H.
Defined.

(** C8 on a run that ends in the fallback. *)
Lemma capture_returns_its_child_witness :
  popen (sample_env (bytes_lit "bore.pub:1234") [(16%Q, REmpty)]) = inl 7%nat.
Proof.
  edestruct (capture_returns_its_child sample_digits sample_digits
               (sample_env (bytes_lit "bore.pub:1234") [(16%Q, REmpty)])
               (Some (lit "http://bore.pub:1234/")) 7%nat)
    as (H & _).
  - vm_compute. reflexivity.
  - exact H.
Defined.

(** C9 on a run of seven digits. *)
Lemma fallback_truncates_to_five_witness :
  fallback sample_digits
    {| output := bytes_lit "bore.pub:1234567"; found_bore_pub := true;
       port_digits := lit "1234567" |}
  = Done (Some (lit "http://bore.pub:" ++ firstn 5 (lit "1234567") ++ lit "/"))
         [Print (lit "Timeout reached. Searching full output...")].
Proof.
  apply (fallback_truncates_to_five sample_digits sample_digits
           {| output := bytes_lit "bore.pub:1234567"; found_bore_pub := true;
              port_digits := lit "1234567" |} [] (lit "1234567") []).
  - reflexivity.
  - intros pre' post' _. simpl. lia.
  - repeat constructor.
  - simpl. lia.
Defined.

(** C10 on the URL of a fallback. *)
Lemma returned_port_is_numeric_witness :
  exists p suffix,
    lit "http://bore.pub:1234/" = lit "http://bore.pub:" ++ p ++ suffix /\
    (4 <= length p)%nat /\
    digits_text sample_digits p /\
    (suffix = lit "/opds/all" /\ ascii_digits p \/
     suffix = lit "/" /\ (length p <= 5)%nat).
Proof.
  eapply (returned_port_is_numeric sample_digits sample_digits
            (sample_env (bytes_lit "bore.pub:1234") [(16%Q, REmpty)])
            (lit "http://bore.pub:1234/") 7%nat).
  vm_compute. reflexivity.
Defined.

(** * The further properties on sample runs *)


(** X3 on a buffer with the marker in it. *)
Lemma scan_state_invariant_witness :
  output {| output := bytes_lit "x bore.pub:12"; found_bore_pub := true;
            port_digits := lit "12" |} = bytes_lit "x bore.pub:12" /\
  found_bore_pub {| output := bytes_lit "x bore.pub:12";
                    found_bore_pub := true; port_digits := lit "12" |}
  = detected (bytes_lit "x bore.pub:12").
Proof.
  apply (scan_state_invariant sample_digits). vm_compute. reflexivity.
Defined.

(** X4 with digits in front of the marker and noise behind it. *)
Lemma port_digits_invariant_witness :
  port_digits {| output := bytes_lit "80 bore.pub:1a2b"; found_bore_pub := true;
                 port_digits := lit "12" |}
  = digits_of (bytes_lit "1a2b").
Proof.
  destruct (port_digits_invariant sample_digits (bytes_lit "80 ")) as [_ H].
  - reflexivity.
  - apply H. vm_compute. reflexivity.
Defined.

(** X5 on the run with two short runs of digits. *)
Lemma fast_path_return_point_witness :
  (exists r1 nd r2,
     bytes_lit "12 bore.pub:3456 " = r1 ++ nd :: r2 /\
     is_digit_byte nd = false /\
     lit "http://bore.pub:123456/opds/all"
       = lit "http://bore.pub:" ++ digits_of r1 ++ lit "/opds/all" /\
     (4 <= length (digits_of r1))%nat /\
     forall a x b, r1 = a ++ x :: b -> is_digit_byte x = false ->
                   (length (digits_of a) < 4)%nat) \/
  (timed_out (sample_env (bytes_lit "bore.pub:12 bore.pub:3456 ") []) = true /\
   exists g, lit "http://bore.pub:123456/opds/all"
             = lit "http://bore.pub:" ++ g ++ lit "/").
Proof.
  eapply (fast_path_return_point sample_digits sample_digits
            (sample_env (bytes_lit "bore.pub:12 bore.pub:3456 ") [])
            7%nat [] (bytes_lit "12 bore.pub:3456 ")).
  - vm_compute. reflexivity.
  - reflexivity.
  - vm_compute. reflexivity.
Defined.

(** X7 on a run whose last byte in time is the sixth digit. *)
Lemma digit_tail_goes_to_fallback_witness :
  exists log,
    capture_bore_url sample_digits sample_digits
      (sample_env (bytes_lit "bore.pub:123456") [(20%Q, REmpty)])
    = Done (Some (lit "http://bore.pub:12345/"), 7%nat) log.
Proof.
  destruct (digit_tail_goes_to_fallback sample_digits sample_digits
              (sample_env (bytes_lit "bore.pub:123456") [(20%Q, REmpty)])
              7%nat [] (bytes_lit "123456")) as [_ H].
  - reflexivity.
  - vm_compute. reflexivity.
  - reflexivity.
  - repeat constructor.
  - destruct (H eq_refl) as [log Hl]. exists log. exact Hl.
Defined.

(** X8 on an ASCII line without the marker. *)
Lemma ascii_stream_without_marker_witness :
  exists log,
    capture_bore_url sample_digits sample_digits
      (sample_env (bytes_lit "retrying") [(16%Q, REmpty)])
    = Done (None, 7%nat) log.
Proof.
  destruct (ascii_stream_without_marker sample_digits sample_digits
              (sample_env (bytes_lit "retrying") [(16%Q, REmpty)]) 7%nat)
    as [_ H].
  - reflexivity.
  - vm_compute. repeat (constructor; [reflexivity|]). constructor.
  - vm_compute. reflexivity.
  - vm_compute. reflexivity.
  - exact H.
Defined.

(** X9 for a script with [PATH] and [TERM] in its environment. *)
Lemma child_environment_witness :
  exists child_env rest,
    log_of (capture_bore_url sample_digits sample_digits
              (noisy_env (bytes_lit "bore.pub:1234 ")))
      = Print (lit "Starting bore.exe...")
        :: Spawn 7%nat ["bore.exe"; "local"; "8080"; "--to"; "bore.pub"]%string
             child_env
        :: rest /\
    Forall (fun a => match a with Spawn _ _ _ => False | _ => True end) rest /\
    env_get "NO_COLOR" child_env = Some "1"%string /\
    env_get "TERM" child_env = Some "dumb"%string /\
    forall k, k <> "NO_COLOR"%string -> k <> "TERM"%string ->
              env_get k child_env
              = env_get k (os_environ (noisy_env (bytes_lit "bore.pub:1234 "))).
Proof.
  apply (child_environment sample_digits sample_digits
           (noisy_env (bytes_lit "bore.pub:1234 ")) 7%nat).
  reflexivity.
Defined.

(** X10 when [bore.exe] is not there. *)
Lemma popen_failure_propagates_witness :
  main sample_digits sample_digits
    (lit "bore@example.org") (lit "secret") (lit "me@example.org") no_bore
  = Raised (PyException (lit "[WinError 2]"))
      [Print (lit "Starting bore.exe...")].
Proof.
  apply (popen_failure_propagates sample_digits sample_digits
           (lit "bore@example.org") (lit "secret") (lit "me@example.org")
           no_bore (PyException (lit "[WinError 2]"))).
  reflexivity.
Defined.


(** X12 with a login that the server refuses. *)
Lemma mail_steps_in_order_witness :
  connect_r smtp_login_refused = None /\ starttls_r smtp_login_refused = None.
Proof.
  destruct (mail_steps_in_order (lit "bore@example.org") (lit "secret")
              (lit "me@example.org") (lit "http://bore.pub:1234/")
              smtp_login_refused) as [H _].
  destruct (H (lit "bore@example.org") (lit "secret")) as (H1 & H2 & _).
  - simpl. right. right. left. reflexivity.
  - split; assumption.
Defined.

(** X14 with an interrupt during the login. *)
Lemma raising_mail_ends_program_witness :
  result_of (main_io sample_digits sample_digits
               (lit "bore@example.org") (lit "secret") (lit "me@example.org")
               utf8_console
               (io_main (map (fun b => byte_step 1 b None)
                           (bytes_lit "bore.pub:1234 "))
                  smtp_interrupted None))
  = Some (inr KeyboardInterrupt).
Proof.
  edestruct (raising_mail_ends_program sample_digits sample_digits
               (lit "bore@example.org") (lit "secret") (lit "me@example.org")
               utf8_console
               (io_main (map (fun b => byte_step 1 b None)
                           (bytes_lit "bore.pub:1234 "))
                  smtp_interrupted None)
               (lit "http://bore.pub:1234/opds/all") 7%nat)
    as (He & Hm & _).
  - vm_compute. reflexivity.
  - vm_compute. reflexivity.
  - vm_compute. reflexivity.
  - rewrite Hm. reflexivity.
Defined.

(** X15 on a run without the marker, on a console in cp1252. *)
Lemma no_url_runs_bore_directly_witness :
  main_io sample_digits sample_digits
    (lit "bore@example.org") (lit "secret") (lit "me@example.org")
    cp1252_console
    (io_main (map (fun b => byte_step 1 b None) (bytes_lit "retrying")
              ++ [test_step (inl 16%Q)]) smtp_fine None)
  = Raised
      (PyException
         (lit "'charmap' codec can't encode character '\u274c' in position 1: character maps to <undefined>"))
      [Print (lit "Starting bore.exe...");
       Spawn 7%nat BORE_ARGV [("NO_COLOR", "1"); ("TERM", "dumb")]%string;
       Print (lit "Reading bore output...");
       Print (lit "Timeout reached. Searching full output...")].
Proof.
  edestruct (no_url_runs_bore_directly sample_digits sample_digits
               (lit "bore@example.org") (lit "secret") (lit "me@example.org")
               cp1252_console
               (io_main (map (fun b => byte_step 1 b None)
                           (bytes_lit "retrying")
                         ++ [test_step (inl 16%Q)]) smtp_fine None) 7%nat)
    as (_ & H & _).
  - vm_compute. reflexivity.
  - apply H. reflexivity.
Defined.

(** X16 on a run that is interrupted while waiting. *)
Lemma terminate_only_on_interrupt_witness :
  wait_r (sample_main (bytes_lit "bore.pub:1234 ") [] smtp_fine
            (Some KeyboardInterrupt)) = Some KeyboardInterrupt.
Proof.
  destruct (terminate_only_on_interrupt sample_digits sample_digits
              (lit "bore@example.org") (lit "secret") (lit "me@example.org")
              (sample_main (bytes_lit "bore.pub:1234 ") [] smtp_fine
                 (Some KeyboardInterrupt)) 7%nat) as [_ H].
  destruct H as [Hw _]; [|exact Hw].
  vm_compute. repeat (first [left; reflexivity | right]).
Defined.

(** X17 on a run that mails the URL. *)
Lemma mailed_url_is_captured_url_witness :
  mail_to (message (lit "bore@example.org") (lit "me@example.org")
             (lit "http://bore.pub:1234/opds/all"))
  = lit "me@example.org".
Proof.
  destruct (mailed_url_is_captured_url sample_digits sample_digits
              (lit "bore@example.org") (lit "secret") (lit "me@example.org")
              (sample_main (bytes_lit "bore.pub:1234 ") [] smtp_fine None)
              (message (lit "bore@example.org") (lit "me@example.org")
                 (lit "http://bore.pub:1234/opds/all")))
    as (url & p & l & _ & _ & _ & _ & H).
  - vm_compute. repeat (first [left; reflexivity | right]).
  - exact H.
Defined.
